(** * Session navigator of the drone-delivery demo (src/App.js)

    A shallow embedding of the state that the [App] component keeps in its
    [useState] hooks, of the handlers it passes to its child views, of the
    controls those views render (a control that is not rendered or is
    [disabled] cannot invoke its handler), and of the two effects that run
    after every commit: the mock order progression and the guardrails.
    [handle] and [run] take the events of the view of the current screen;
    [handleFrom] and [play] also take those of a view that [AnimatePresence]
    keeps on screen while it exits, and the late call of [onAuthed].

    The local state of the [Auth] and [Unlock] views is modelled apart from
    the session, each with the continuations of its async functions that
    wait on a timeout; [formatPhone], the delivery context and what the
    tracking view derives from an order are plain functions.

    Not modelled: styling, animation, the "How it works" modal, clock
    rendering ([nowPlusMinutes]) and the [window.open] call of the checkout
    handler.  Wall-clock delays are kept as data on the pending timers; a
    timer firing is an event. *)

From Stdlib Require Import String Ascii List ZArith Bool Lia DecimalString.
From Stdlib Require DecimalZ DecimalPos.
Import ListNotations.
Open Scope string_scope.
Open Scope Z_scope.

(** ** Mock data *)

Inductive ArriveType := shared | private.

Module ArrivePoint.
Record t := { id : string; label : string; type : ArriveType }.
End ArrivePoint.

Module Location.
Record t := {
  id : string;
  name : string;
  subtitle : string;
  arrivePoints : list ArrivePoint.t
}.
End Location.

Module Merchant.
Record t := {
  id : string;
  name : string;
  category : string;
  etaMins : Z;
  open : bool;
  chownowUrl : string;
  tags : list string
}.
End Merchant.

Definition LOCATIONS : list Location.t :=
  [ {| Location.id := "vp-launch-fishers";
       Location.name := "Launch Fishers";
       Location.subtitle := "Shared pickup";
       Location.arrivePoints :=
         [ {| ArrivePoint.id := "AP-101";
              ArrivePoint.label := "AP-101 • Lobby";
              ArrivePoint.type := shared |};
           {| ArrivePoint.id := "AP-102";
              ArrivePoint.label := "AP-102 • Suite Wing";
              ArrivePoint.type := shared |} ] |};
    {| Location.id := "vp-building-a";
       Location.name := "Visionary Park Building A";
       Location.subtitle := "Private pickup";
       Location.arrivePoints :=
         [ {| ArrivePoint.id := "AP-201";
              ArrivePoint.label := "AP-201 • Main Entrance";
              ArrivePoint.type := private |} ] |};
    {| Location.id := "vp-building-b";
       Location.name := "Visionary Park Building B";
       Location.subtitle := "Private pickup";
       Location.arrivePoints :=
         [ {| ArrivePoint.id := "AP-301";
              ArrivePoint.label := "AP-301 • Mail Room";
              ArrivePoint.type := private |} ] |} ].

Definition MERCHANTS : list Merchant.t :=
  [ {| Merchant.id := "merchant-1";
       Merchant.name := "Sushi & Bowls";
       Merchant.category := "Asian";
       Merchant.etaMins := 28;
       Merchant.open := true;
       Merchant.chownowUrl := "https://order.chownow.com/placeholders/merchant-1";
       Merchant.tags := ["Fresh"; "Light"; "Popular"] |};
    {| Merchant.id := "merchant-2";
       Merchant.name := "Garlic Noodle House";
       Merchant.category := "Noodles";
       Merchant.etaMins := 32;
       Merchant.open := true;
       Merchant.chownowUrl := "https://order.chownow.com/placeholders/merchant-2";
       Merchant.tags := ["Savory"; "Medium spice"] |};
    {| Merchant.id := "merchant-3";
       Merchant.name := "Grill & Greens";
       Merchant.category := "Bowls";
       Merchant.etaMins := 24;
       Merchant.open := false;
       Merchant.chownowUrl := "https://order.chownow.com/placeholders/merchant-3";
       Merchant.tags := ["Protein"; "Clean"] |} ].

Module SCREENS.
Inductive t :=
| LANDING | AUTH | DESTINATION | MERCHANTS | MERCHANT_DETAIL | TRACKING | UNLOCK.

Definition eqb (a b : t) : bool :=
  match a, b with
  | LANDING, LANDING | AUTH, AUTH | DESTINATION, DESTINATION
  | MERCHANTS, MERCHANTS | MERCHANT_DETAIL, MERCHANT_DETAIL
  | TRACKING, TRACKING | UNLOCK, UNLOCK => true
  | _, _ => false
  end.
End SCREENS.

(** ** Session state *)

Record User := { phone : string }.

(** An order object.  [id], [merchantName] and [eta] are optional only because
    the timer callback builds its result with an object spread,
    [{ ...o, status: next }], which on a null [o] yields an object that has a
    [status] and nothing else. *)
Module Order.
Record t := {
  id : option string;
  status : string;
  merchantName : option string;
  eta : option Z
}.
End Order.

(** A timeout set by the order-progression effect and still pending: the
    status its callback will write and its delay in milliseconds. *)
Record Timer := { next : string; ms : Z }.

(** The [useState] cells of [App], followed by the two pieces of bookkeeping
    React keeps for the order-progression effect: the timeouts it has set
    and not yet cleared or fired, and the value of its dependency
    [order?.status] when it last ran. *)
Record Session := {
  screen : SCREENS.t;
  user : option User;
  locationId : string;
  arrivePointId : string;
  selectedMerchantId : option string;
  order : option Order.t;
  timers : list Timer;
  orderDep : option string
}.

Definition setScreen (v : SCREENS.t) (s : Session) : Session :=
  {| screen := v; user := user s; locationId := locationId s;
     arrivePointId := arrivePointId s;
     selectedMerchantId := selectedMerchantId s; order := order s;
     timers := timers s; orderDep := orderDep s |}.

Definition setUser (v : option User) (s : Session) : Session :=
  {| screen := screen s; user := v; locationId := locationId s;
     arrivePointId := arrivePointId s;
     selectedMerchantId := selectedMerchantId s; order := order s;
     timers := timers s; orderDep := orderDep s |}.

Definition setLocationId (v : string) (s : Session) : Session :=
  {| screen := screen s; user := user s; locationId := v;
     arrivePointId := arrivePointId s;
     selectedMerchantId := selectedMerchantId s; order := order s;
     timers := timers s; orderDep := orderDep s |}.

Definition setArrivePointId (v : string) (s : Session) : Session :=
  {| screen := screen s; user := user s; locationId := locationId s;
     arrivePointId := v;
     selectedMerchantId := selectedMerchantId s; order := order s;
     timers := timers s; orderDep := orderDep s |}.

Definition setSelectedMerchantId (v : option string) (s : Session) : Session :=
  {| screen := screen s; user := user s; locationId := locationId s;
     arrivePointId := arrivePointId s;
     selectedMerchantId := v; order := order s;
     timers := timers s; orderDep := orderDep s |}.

Definition setOrder (v : option Order.t) (s : Session) : Session :=
  {| screen := screen s; user := user s; locationId := locationId s;
     arrivePointId := arrivePointId s;
     selectedMerchantId := selectedMerchantId s; order := v;
     timers := timers s; orderDep := orderDep s |}.

(** JavaScript truthiness of a string: the empty string is falsy. *)
Definition truthy (x : string) : bool := negb (x =? "")%string.

Definition isSome {A} (x : option A) : bool :=
  match x with Some _ => true | None => false end.

(** The state of the [useState] initialisers. *)
Definition initial : Session :=
  {| screen := SCREENS.LANDING; user := None; locationId := "";
     arrivePointId := ""; selectedMerchantId := None; order := None;
     timers := []; orderDep := None |}.

(** ** Derived values ([useMemo]) *)

Definition findLocation (lid : string) : option Location.t :=
  find (fun l => (Location.id l =? lid)%string) LOCATIONS.

Definition location (s : Session) : option Location.t :=
  findLocation (locationId s).

Definition arrivePoint (s : Session) : option ArrivePoint.t :=
  match location s with
  | None => None
  | Some l =>
      find (fun ap => (ArrivePoint.id ap =? arrivePointId s)%string)
           (Location.arrivePoints l)
  end.

Definition findMerchant (mid : string) : option Merchant.t :=
  find (fun m => (Merchant.id m =? mid)%string) MERCHANTS.

Definition selectedMerchant (s : Session) : option Merchant.t :=
  match selectedMerchantId s with
  | None => None
  | Some mid => findMerchant mid
  end.

(** ** The order-progression effect (dependency [order?.status]) *)

Definition setTimers (ts : list Timer) (dep : option string) (s : Session)
  : Session :=
  {| screen := screen s; user := user s; locationId := locationId s;
     arrivePointId := arrivePointId s;
     selectedMerchantId := selectedMerchantId s; order := order s;
     timers := ts; orderDep := dep |}.

(** [advance(next, ms)] pushes one timeout on the effect's [timers] array. *)
Definition advance (nx : string) (delay : Z) (ts : list Timer) : list Timer :=
  ts ++ [ {| next := nx; ms := delay |} ].

(** The body of the effect: the timeouts it sets for the order it sees. *)
Definition orderEffectBody (o : option Order.t) : list Timer :=
  match o with
  | None => []
  | Some o =>
      if (Order.status o =? "DELIVERED")%string then [] else
      let ts := [] in
      let ts := if (Order.status o =? "PLACED")%string
                then advance "ACCEPTED" 1500 ts else ts in
      let ts := if (Order.status o =? "ACCEPTED")%string
                then advance "PREPARING" 1800 ts else ts in
      let ts := if (Order.status o =? "PREPARING")%string
                then advance "READY" 2600 ts else ts in
      let ts := if (Order.status o =? "READY")%string
                then advance "PICKED_UP" 1800 ts else ts in
      let ts := if (Order.status o =? "PICKED_UP")%string
                then advance "IN_FLIGHT" 1800 ts else ts in
      let ts := if (Order.status o =? "IN_FLIGHT")%string
                then advance "DELIVERED" 2800 ts else ts in
      ts
  end.

Definition depEqb (a b : option string) : bool :=
  match a, b with
  | None, None => true
  | Some x, Some y => (x =? y)%string
  | _, _ => false
  end.

(** One run of the effect after a commit: when the dependency changed, the
    cleanup clears the timeouts of the previous run and the body sets new
    ones; otherwise nothing happens and pending timeouts stay. *)
Definition orderEffect (s : Session) : Session :=
  let dep := option_map Order.status (order s) in
  if depEqb dep (orderDep s) then s
  else setTimers (orderEffectBody (order s)) dep s.

(** The callback of a timeout: [setOrder((o) => ({ ...o, status: next }))]. *)
Definition spreadStatus (o : option Order.t) (nx : string) : Order.t :=
  match o with
  | Some o => {| Order.id := Order.id o; Order.status := nx;
                 Order.merchantName := Order.merchantName o;
                 Order.eta := Order.eta o |}
  | None => {| Order.id := None; Order.status := nx;
               Order.merchantName := None; Order.eta := None |}
  end.

Fixpoint removeNth {A} (i : nat) (l : list A) : list A :=
  match l, i with
  | [], _ => []
  | _ :: r, O => r
  | x :: r, S i' => x :: removeNth i' r
  end.

(** The [i]-th pending timeout fires; a timeout that is not pending cannot. *)
Definition fire (i : nat) (s : Session) : Session :=
  match nth_error (timers s) i with
  | None => s
  | Some t =>
      setTimers (removeNth i (timers s)) (orderDep s)
                (setOrder (Some (spreadStatus (order s) (next t))) s)
  end.

(** ** The guardrails effect

    Both tests read the [screen] of the render the effect belongs to; a
    [setScreen] inside the effect does not change what the second test sees. *)
Definition guard (s : Session) : Session :=
  if SCREENS.eqb (screen s) SCREENS.LANDING then s else
  let s1 :=
    if negb (isSome (user s)) && negb (SCREENS.eqb (screen s) SCREENS.AUTH)
    then setScreen SCREENS.AUTH s else s in
  let s2 :=
    if isSome (user s)
       && (negb (truthy (locationId s)) || negb (truthy (arrivePointId s)))
       && negb (SCREENS.eqb (screen s) SCREENS.DESTINATION)
       && negb (SCREENS.eqb (screen s) SCREENS.AUTH)
    then setScreen SCREENS.DESTINATION s1 else s1 in
  s2.

(** All effects after one commit.  The order effect never touches what the
    guard reads and conversely, and a second pass of either changes nothing
    (lemmas [guard_idem] and [orderEffect_idem] below). *)
Definition effects (s : Session) : Session := guard (orderEffect s).

(** ** App-level handlers *)

Definition onAuthed (u : User) (s : Session) : Session :=
  setScreen SCREENS.DESTINATION (setUser (Some u) s).

Definition onPickLocation (lid : string) (s : Session) : Session :=
  setArrivePointId "" (setLocationId lid s).

Definition onPickArrivePoint (apid : string) (s : Session) : Session :=
  setArrivePointId apid s.

Definition onSelect (mid : string) (s : Session) : Session :=
  setScreen SCREENS.MERCHANT_DETAIL (setSelectedMerchantId (Some mid) s).

(** The template literal [`VP-${n}`] for an integer [n]. *)
Definition orderId (n : Z) : string :=
  "VP-" ++ NilZero.string_of_int (Z.to_int n).

(** [rnd] stands for the value of [Math.floor(Math.random() * 90000)]. *)
Definition newOrder (m : Merchant.t) (rnd : Z) : Order.t :=
  {| Order.id := Some (orderId (rnd + 10000));
     Order.status := "PLACED";
     Order.merchantName := Some (Merchant.name m);
     Order.eta := Some (Merchant.etaMins m) |}.

Definition onCheckout (m : Merchant.t) (rnd : Z) (s : Session) : Session :=
  setScreen SCREENS.TRACKING (setOrder (Some (newOrder m rnd)) s).

Definition onUnlock (s : Session) : Session := setScreen SCREENS.UNLOCK s.

(** ** String helpers of the merchant search

    [toLowerCase] and [trim] are those of ASCII text: they agree with the
    built-ins on every string of ASCII characters, and statements that depend
    on them are made for such search texts. *)

Definition lowerChar (c : ascii) : ascii :=
  let n := nat_of_ascii c in
  if ((65 <=? n) && (n <=? 90))%nat then ascii_of_nat (n + 32) else c.

Fixpoint toLowerCase (s : string) : string :=
  match s with
  | EmptyString => EmptyString
  | String c r => String (lowerChar c) (toLowerCase r)
  end.

Definition isBlank (c : ascii) : bool :=
  let n := nat_of_ascii c in
  (((9 <=? n) && (n <=? 13)) || (n =? 32))%nat.

Fixpoint trimStart (s : string) : string :=
  match s with
  | EmptyString => EmptyString
  | String c r => if isBlank c then trimStart r else s
  end.

Fixpoint trimEnd (s : string) : string :=
  match s with
  | EmptyString => EmptyString
  | String c r =>
      let r' := trimEnd r in
      if isBlank c && (r' =? "")%string then EmptyString else String c r'
  end.

Definition trim (s : string) : string := trimEnd (trimStart s).

Fixpoint includes (s sub : string) : bool :=
  prefix sub s ||
  match s with
  | EmptyString => false
  | String _ r => includes r sub
  end.

(** ** Controls of the child views *)

(** [Destination]: one button per entry of [LOCATIONS]. *)
Definition clickLocation (i : nat) (s : Session) : Session :=
  match nth_error LOCATIONS i with
  | Some l => onPickLocation (Location.id l) s
  | None => s
  end.

(** [Destination]: one button per arrive point of the location that
    [locationId] resolves to, and none when it resolves to nothing. *)
Definition clickArrivePoint (j : nat) (s : Session) : Session :=
  match findLocation (locationId s) with
  | None => s
  | Some l =>
      match nth_error (Location.arrivePoints l) j with
      | Some ap => onPickArrivePoint (ArrivePoint.id ap) s
      | None => s
      end
  end.

Definition canContinue (s : Session) : bool :=
  truthy (locationId s) && truthy (arrivePointId s).

(** [Merchants]: the list shown for the search text [q]. *)
Definition filtered (q : string) : list Merchant.t :=
  let s := toLowerCase (trim q) in
  if negb (truthy s) then MERCHANTS
  else filter (fun m => includes (toLowerCase (Merchant.name m)) s
                        || includes (toLowerCase (Merchant.category m)) s)
              MERCHANTS.

(** [Merchants]: one button per shown merchant, [disabled] when it is closed. *)
Definition clickMerchant (q : string) (i : nat) (s : Session) : Session :=
  match nth_error (filtered q) i with
  | Some m => if Merchant.open m then onSelect (Merchant.id m) s else s
  | None => s
  end.

(** [Tracking]: the step list and the gate of the "Open Arrive Point" button. *)
Definition steps : list string :=
  ["PLACED"; "ACCEPTED"; "PREPARING"; "READY"; "PICKED_UP"; "IN_FLIGHT";
   "DELIVERED"].

Fixpoint findIndex (k : string) (l : list string) : option nat :=
  match l with
  | [] => None
  | x :: r => if (x =? k)%string then Some O
              else option_map S (findIndex k r)
  end.

Definition idx (o : Order.t) : option nat := findIndex (Order.status o) steps.

Definition canUnlock (o : Order.t) : bool :=
  (Order.status o =? "DELIVERED")%string.

Definition clickOpenArrivePoint (o : Order.t) (s : Session) : Session :=
  if canUnlock o then onUnlock s else s.

(** ** Events and the transition function *)

Inductive Event :=
| LandingContinue
| AuthVerified (u : User)
| PickLocation (i : nat)
| PickArrivePoint (j : nat)
| DestinationContinue
| MerchantClick (q : string) (i : nat)
| DetailBack
| DetailCheckout (rnd : Z)
| TrackingBack
| TrackingOpenArrivePoint
| UnlockDone
| TimerFire (i : nat).

(** What an event does when it comes from the view of the current screen,
    as rendered in the current state.  Each view is rendered under the
    condition [App] gives it; a control that this view does not have, or a
    disabled button, does nothing.  A view that is still on screen while it
    exits is covered by [handleFrom] below, of which this is the case where
    the view is the current one. *)
Definition handle (e : Event) (s : Session) : Session :=
  match e with
  | TimerFire i => fire i s
  | _ =>
    match screen s with
    | SCREENS.LANDING =>
        match e with
        | LandingContinue => setScreen SCREENS.AUTH s
        | _ => s
        end
    | SCREENS.AUTH =>
        match e with
        | AuthVerified u => onAuthed u s
        | _ => s
        end
    | SCREENS.DESTINATION =>
        match e with
        | PickLocation i => clickLocation i s
        | PickArrivePoint j => clickArrivePoint j s
        | DestinationContinue =>
            if canContinue s then setScreen SCREENS.MERCHANTS s else s
        | _ => s
        end
    | SCREENS.MERCHANTS =>
        match e with
        | MerchantClick q i => clickMerchant q i s
        | _ => s
        end
    | SCREENS.MERCHANT_DETAIL =>
        match selectedMerchant s with
        | None => s
        | Some m =>
            match e with
            | DetailBack => setScreen SCREENS.MERCHANTS s
            | DetailCheckout rnd => onCheckout m rnd s
            | _ => s
            end
        end
    | SCREENS.TRACKING =>
        match order s with
        | None => s
        | Some o =>
            match e with
            | TrackingBack => setScreen SCREENS.MERCHANTS s
            | TrackingOpenArrivePoint => clickOpenArrivePoint o s
            | _ => s
            end
        end
    | SCREENS.UNLOCK =>
        match order s with
        | None => s
        | Some _ =>
            match e with
            | UnlockDone => setScreen SCREENS.MERCHANTS s
            | _ => s
            end
        end
    end
  end.

(** One interaction: the handler's updates are committed, then the effects
    run. *)
Definition step (e : Event) (s : Session) : Session := effects (handle e s).

Definition run (es : list Event) (s : Session) : Session :=
  fold_left (fun acc e => step e acc) es s.

(** The deep-link effect of the first mount:
    [const loc = params.get("location"); if (loc) setLocationId(loc)]. *)
Definition deepLink (loc : option string) (s : Session) : Session :=
  match loc with
  | Some l => if truthy l then setLocationId l s else s
  | None => s
  end.

(** The session once the first mount has settled. *)
Definition boot (loc : option string) : Session :=
  effects (deepLink loc initial).

(** States a session can be in after booting with deep link [loc]. *)
Inductive reachable (loc : option string) : Session -> Prop :=
| reach_boot : reachable loc (boot loc)
| reach_step e s : reachable loc s -> reachable loc (step e s).

(** ** Predicates used by the statements *)

(** The four screens behind the destination step. *)
Definition pastDestination (sc : SCREENS.t) : bool :=
  match sc with
  | SCREENS.MERCHANTS | SCREENS.MERCHANT_DETAIL
  | SCREENS.TRACKING | SCREENS.UNLOCK => true
  | _ => false
  end.

(** The destination is incomplete: [!locationId || !arrivePointId]. *)
Definition incomplete (s : Session) : bool :=
  negb (truthy (locationId s)) || negb (truthy (arrivePointId s)).

(** Two order objects that differ at most in their status. *)
Definition sameOrder (a b : Order.t) : Prop :=
  Order.id a = Order.id b
  /\ Order.merchantName a = Order.merchantName b
  /\ Order.eta a = Order.eta b.

(** [b] is [a] moved one place along [steps]. *)
Definition oneStepAfter (a b : Order.t) : Prop :=
  sameOrder a b /\ exists n, idx a = Some n /\ idx b = Some (S n).

Definition isCheckout (e : Event) : bool :=
  match e with DetailCheckout _ => true | _ => false end.

(** A screen that is none of the four behind the destination step. *)
Definition beforeMerchants (sc : SCREENS.t) : Prop :=
  sc <> SCREENS.MERCHANTS /\ sc <> SCREENS.MERCHANT_DETAIL
  /\ sc <> SCREENS.TRACKING /\ sc <> SCREENS.UNLOCK.

(** Invariants of the reachable states, one per concern. *)

Definition navInv (s : Session) : Prop :=
  (user s = None ->
   screen s = SCREENS.LANDING \/ screen s = SCREENS.AUTH)
  /\ (pastDestination (screen s) = true -> incomplete s = false).

Definition destinationInv (s : Session) : Prop :=
  arrivePointId s <> "" ->
  exists l ap,
    location s = Some l /\ arrivePoint s = Some ap
    /\ In ap (Location.arrivePoints l)
    /\ ArrivePoint.id ap = arrivePointId s.

Definition merchantInv (s : Session) : Prop :=
  (forall mid, selectedMerchantId s = Some mid ->
     exists m, findMerchant mid = Some m /\ Merchant.open m = true
               /\ Merchant.id m = mid)
  /\ (screen s = SCREENS.MERCHANT_DETAIL -> selectedMerchantId s <> None).

Definition completeOrder (o : Order.t) : Prop :=
  In (Order.status o) steps /\ Order.id o <> None
  /\ Order.merchantName o <> None /\ Order.eta o <> None.

Definition orderInv (s : Session) : Prop :=
  (forall o, order s = Some o -> completeOrder o)
  /\ timers s = orderEffectBody (order s)
  /\ orderDep s = option_map Order.status (order s)
  /\ (screen s = SCREENS.TRACKING \/ screen s = SCREENS.UNLOCK ->
      order s <> None).

(** ** Concrete runs *)

Definition demoUser : User := {| phone := "3175550123" |}.

Definition toDestination : list Event :=
  [ LandingContinue; AuthVerified demoUser; PickLocation 1; PickArrivePoint 0 ].

Definition toTracking : list Event :=
  toDestination ++ [ DestinationContinue; MerchantClick "" 0; DetailCheckout 2345 ].

Definition toDelivered : list Event := toTracking ++ repeat (TimerFire 0) 6.


Definition firstOrder : Order.t :=
  {| Order.id := Some "VP-12345"; Order.status := "PLACED";
     Order.merchantName := Some "Sushi & Bowls"; Order.eta := Some 28 |}.

(** ** Phone formatting *)

Definition isDigit (c : ascii) : bool :=
  let n := nat_of_ascii c in ((48 <=? n) && (n <=? 57))%nat.

(** [s.replace(/\D/g, "")]: every character that is not one of 0-9 goes. *)
Fixpoint stripNonDigits (s : string) : string :=
  match s with
  | EmptyString => EmptyString
  | String c r =>
      if isDigit c then String c (stripNonDigits r) else stripNonDigits r
  end.

(** [s.slice(b, e)] for [0 <= b <= e]; it stops at the end of [s]. *)
Definition slice (b e : nat) (s : string) : string := substring b (e - b) s.

(** [raw] is [None] for a null or undefined argument, which [raw || ""]
    treats as the empty string. *)
Definition formatPhone (raw : option string) : string :=
  let digits :=
    slice 0 10 (stripNonDigits (match raw with Some r => r | None => "" end)) in
  let a := slice 0 3 digits in
  let b := slice 3 6 digits in
  let c := slice 6 10 digits in
  if (String.length digits <=? 3)%nat then a
  else if (String.length digits <=? 6)%nat then "(" ++ a ++ ") " ++ b
  else "(" ++ a ++ ") " ++ b ++ "-" ++ c.

(** The layout step of [formatPhone], on the digits it has kept. *)
Definition layout (digits : string) : string :=
  let a := slice 0 3 digits in
  let b := slice 3 6 digits in
  let c := slice 6 10 digits in
  if (String.length digits <=? 3)%nat then a
  else if (String.length digits <=? 6)%nat then "(" ++ a ++ ") " ++ b
  else "(" ++ a ++ ") " ++ b ++ "-" ++ c.

Fixpoint allDigits (s : string) : bool :=
  match s with
  | EmptyString => true
  | String c r => isDigit c && allDigits r
  end.

(** ** Derived values of [App] shown by the views *)

Record DeliveryContext := {
  locationName : string;
  dcArrivePointId : string;
  arrivePointLabel : string
}.

Definition deliveryContext (s : Session) : option DeliveryContext :=
  match location s, arrivePoint s with
  | Some l, Some ap =>
      Some {| locationName := Location.name l;
              dcArrivePointId := ArrivePoint.id ap;
              arrivePointLabel := ArrivePoint.label ap |}
  | _, _ => None
  end.

(** [MerchantDetail]: the suggested order note. *)
Definition note (dc : option DeliveryContext) : string :=
  match dc with
  | Some c => "Visionary Park drone delivery to " ++ dcArrivePointId c
  | None => ""
  end.

(** ** The [Tracking] view *)

Definition stepLabels : list (string * string) :=
  [ ("PLACED", "Order placed"); ("ACCEPTED", "Accepted");
    ("PREPARING", "Preparing"); ("READY", "Ready for pickup");
    ("PICKED_UP", "Picked up"); ("IN_FLIGHT", "In flight");
    ("DELIVERED", "Delivered") ].

(** The class test [i <= idx] of the [i]-th dot; [findIndex] gives -1 when
    the status is no key of the list, and then no dot is on. *)
Definition stepOn (o : Order.t) (i : nat) : bool :=
  match idx o with
  | Some n => (i <=? n)%nat
  | None => false
  end.

Definition stepsOn (o : Order.t) : list bool :=
  map (stepOn o) (seq 0 (List.length stepLabels)).

(** The headline [steps[idx]?.label || order.status]. *)
Definition statusBig (o : Order.t) : string :=
  match idx o with
  | Some n =>
      match nth_error stepLabels n with
      | Some (_, l) => if truthy l then l else Order.status o
      | None => Order.status o
      end
  | None => Order.status o
  end.

(** ** The [Auth] view

    Its four [useState] cells and the continuations of [send] and [verify]
    that wait on their 700 ms timeout.  The continuation of [verify] reads
    the [phone] of the render in which the button was pressed. *)
Module Auth.

Inductive Step := PHONE | OTP.

Inductive Continuation :=
| AfterSend
| AfterVerify (phoneAtClick : string).

Record State := {
  step : Step;
  phone : string;
  otp : string;
  loading : bool;
  waiting : list Continuation
}.

Definition initial : State :=
  {| step := PHONE; phone := ""; otp := ""; loading := false; waiting := [] |}.

Definition canSend (st : State) : bool :=
  (String.length (stripNonDigits (phone st)) =? 10)%nat.

Definition canVerify (st : State) : bool :=
  (String.length (stripNonDigits (otp st)) =? 6)%nat.

Inductive Event :=
| ChangePhone (v : string)
| ClickSend
| ChangeOtp (v : string)
| ClickBack
| ClickVerify
| TimeoutElapsed (i : nat).

(** The new state and, when [onAuthed] is called, its argument. *)
Definition handle (e : Event) (st : State) : State * option User :=
  match e with
  | TimeoutElapsed i =>
      match nth_error (waiting st) i with
      | None => (st, None)
      | Some AfterSend =>
          ({| step := OTP; phone := phone st; otp := otp st;
              loading := false; waiting := removeNth i (waiting st) |}, None)
      | Some (AfterVerify p) =>
          ({| step := step st; phone := phone st; otp := otp st;
              loading := false; waiting := removeNth i (waiting st) |},
           Some (Build_User (stripNonDigits p)))
      end
  | _ =>
    match step st with
    | PHONE =>
        match e with
        | ChangePhone v =>
            ({| step := step st; phone := v; otp := otp st;
                loading := loading st; waiting := waiting st |}, None)
        | ClickSend =>
            if canSend st && negb (loading st)
            then ({| step := step st; phone := phone st; otp := otp st;
                     loading := true;
                     waiting := waiting st ++ [AfterSend] |}, None)
            else (st, None)
        | _ => (st, None)
        end
    | OTP =>
        match e with
        | ChangeOtp v =>
            ({| step := step st; phone := phone st;
                otp := slice 0 6 (stripNonDigits v);
                loading := loading st; waiting := waiting st |}, None)
        | ClickBack =>
            ({| step := PHONE; phone := phone st; otp := otp st;
                loading := loading st; waiting := waiting st |}, None)
        | ClickVerify =>
            if canVerify st && negb (loading st)
            then ({| step := step st; phone := phone st; otp := otp st;
                     loading := true;
                     waiting := waiting st ++ [AfterVerify (phone st)] |},
                  None)
            else (st, None)
        | _ => (st, None)
        end
    end
  end.

(** A run: the final state and the arguments of the [onAuthed] calls, in
    order. *)
Fixpoint run (es : list Event) (st : State) : State * list User :=
  match es with
  | [] => (st, [])
  | e :: r =>
      let '(st1, out) := handle e st in
      let '(st2, outs) := run r st1 in
      (st2, match out with Some u => u :: outs | None => outs end)
  end.

(** No [ChangePhone] happens while a request is in flight. *)
Fixpoint editsWhenIdle (es : list Event) (st : State) : bool :=
  match es with
  | [] => true
  | e :: r =>
      match e with
      | ChangePhone _ => negb (loading st)
      | _ => true
      end && editsWhenIdle r (fst (handle e st))
  end.

End Auth.

(** ** The [Unlock] view *)
Module Unlock.

Inductive Mode := QR | OTP.

Record State := {
  mode : Mode;
  unlocking : bool;
  unlocked : bool;
  otp : string;
  waiting : nat
}.

Definition initial : State :=
  {| mode := QR; unlocking := false; unlocked := false; otp := "";
     waiting := 0 |}.

Inductive Event :=
| ClickTab (m : Mode)
| ChangeOtp (v : string)
| ClickUnlock
| TimeoutElapsed.

Definition handle (e : Event) (st : State) : State :=
  match e with
  | ClickTab m =>
      {| mode := m; unlocking := unlocking st; unlocked := unlocked st;
         otp := otp st; waiting := waiting st |}
  | ChangeOtp v =>
      match mode st with
      | OTP =>
          {| mode := mode st; unlocking := unlocking st;
             unlocked := unlocked st;
             otp := slice 0 6 (stripNonDigits v); waiting := waiting st |}
      | QR => st
      end
  | ClickUnlock =>
      if negb (unlocked st) && negb (unlocking st)
      then {| mode := mode st; unlocking := true; unlocked := unlocked st;
              otp := otp st; waiting := S (waiting st) |}
      else st
  | TimeoutElapsed =>
      match waiting st with
      | O => st
      | S n =>
          {| mode := mode st; unlocking := false; unlocked := true;
             otp := otp st; waiting := n |}
      end
  end.

Definition run (es : list Event) (st : State) : State :=
  fold_left (fun acc e => handle e acc) es st.

End Unlock.

(** ** Views that are still on screen while they exit

    [App] wraps its views in [<AnimatePresence mode="wait">] and gives each
    an [exit] animation: when the screen changes, the view that was shown
    stays mounted, with the props of its last render, until its exit has
    played, and its controls still call their handlers, on the state as it
    is by then.  The continuation of [verify] likewise calls [onAuthed]
    whatever the screen has become.

    [handleFrom v e s] is what event [e] does to the state [s] when it comes
    from the view as it was rendered in state [v]: [v] decides which view it
    is, which controls it has and which of them are enabled, and what the
    handler closures captured; the setters act on [s]. *)
Definition handleFrom (v : Session) (e : Event) (s : Session) : Session :=
  match e with
  | TimerFire i => fire i s
  | _ =>
    match screen v with
    | SCREENS.LANDING =>
        match e with
        | LandingContinue => setScreen SCREENS.AUTH s
        | _ => s
        end
    | SCREENS.AUTH =>
        match e with
        | AuthVerified u => onAuthed u s
        | _ => s
        end
    | SCREENS.DESTINATION =>
        match e with
        | PickLocation i => clickLocation i s
        | PickArrivePoint j =>
            match findLocation (locationId v) with
            | None => s
            | Some l =>
                match nth_error (Location.arrivePoints l) j with
                | Some ap => onPickArrivePoint (ArrivePoint.id ap) s
                | None => s
                end
            end
        | DestinationContinue =>
            if canContinue v then setScreen SCREENS.MERCHANTS s else s
        | _ => s
        end
    | SCREENS.MERCHANTS =>
        match e with
        | MerchantClick q i => clickMerchant q i s
        | _ => s
        end
    | SCREENS.MERCHANT_DETAIL =>
        match selectedMerchant v with
        | None => s
        | Some m =>
            match e with
            | DetailBack => setScreen SCREENS.MERCHANTS s
            | DetailCheckout rnd => onCheckout m rnd s
            | _ => s
            end
        end
    | SCREENS.TRACKING =>
        match order v with
        | None => s
        | Some o =>
            match e with
            | TrackingBack => setScreen SCREENS.MERCHANTS s
            | TrackingOpenArrivePoint => clickOpenArrivePoint o s
            | _ => s
            end
        end
    | SCREENS.UNLOCK =>
        match order v with
        | None => s
        | Some _ =>
            match e with
            | UnlockDone => setScreen SCREENS.MERCHANTS s
            | _ => s
            end
        end
    end
  end.

Definition stepFrom (v : Session) (e : Event) (s : Session) : Session :=
  effects (handleFrom v e s).

(** The renders of a session, newest first.  The head is the current state,
    after the effects. *)
Definition current (h : list Session) : Session := hd initial h.

(** A press [(n, e)] is event [e] on the view of the render [n] places back
    in the history; [n = 0] is the view of the current render.  Each press
    adds two renders: the state the handler leaves, and that state after the
    effects.  Any earlier render may be named: this covers the view that is
    exiting, which is all the statements below need. *)
Fixpoint play (ps : list (nat * Event)) (h : list Session) : list Session :=
  match ps with
  | [] => h
  | (n, e) :: r =>
      match nth_error h n with
      | Some v =>
          play r (stepFrom v e (current h) :: handleFrom v e (current h) :: h)
      | None => play r h
      end
  end.

(** The renders of a session booted with deep link [loc]: the first render
    has the initial state, the second follows the deep-link effect. *)
Definition renders (loc : option string) (ps : list (nat * Event))
  : list Session :=
  play ps [boot loc; initial].

(** Events of the current view only. *)
Definition live (es : list Event) : list (nat * Event) :=
  map (fun e => (O, e)) es.

(** What the order effect keeps true of a state it has run on. *)
Definition timerInv (s : Session) : Prop :=
  (forall o, order s = Some o -> completeOrder o)
  /\ timers s = orderEffectBody (order s)
  /\ orderDep s = option_map Order.status (order s).

(** What every history of renders satisfies. *)
Definition historyInv (h : list Session) : Prop :=
  effects (current h) = current h
  /\ timerInv (current h)
  /\ (forall r, In r h -> screen r = SCREENS.LANDING -> user r = None)
  /\ (forall r, In r h -> user r <> None -> user (current h) <> None)
  /\ (forall r, In r h -> order r <> None -> order (current h) <> None).

(** After "Continue to merchants", a location button of the Destination
    view that is still exiting. *)
Definition lateLocationClick : list (nat * Event) :=
  live (toDestination ++ [DestinationContinue]) ++ [ (2%nat, PickLocation 0) ].

(** After checkout, a second press on the merchant page that is still
    exiting. *)
Definition lateCheckout : list (nat * Event) :=
  live toTracking ++ [ (2%nat, DetailCheckout 777) ].

(** After "Continue to merchants", the continuation of a second Verify on
    the sign-in view, which is 8 renders back. *)
Definition lateVerify : list (nat * Event) :=
  live (toDestination ++ [DestinationContinue])
  ++ [ (8%nat, AuthVerified {| phone := "3175550199" |}) ].

(** A delivered order, then back to the merchants and the same merchant and
    draw again. *)
Definition reorderSame : list Event :=
  toDelivered ++ [ TrackingBack; MerchantClick "" 0; DetailCheckout 2345 ].

Fixpoint isAscii (s : string) : bool :=
  match s with
  | EmptyString => true
  | String c r => (nat_of_ascii c <? 128)%nat && isAscii r
  end.

(** The test [Merchants] applies to a merchant for the search text [q]. *)
Definition shownFor (q : string) (m : Merchant.t) : bool :=
  let s := toLowerCase (trim q) in
  negb (truthy s)
  || includes (toLowerCase (Merchant.name m)) s
  || includes (toLowerCase (Merchant.category m)) s.

(** ** Invariants of the views *)

(** What [Auth] knows about the phone number while the code step is shown or
    a request is in flight: ten digits, in the state for [send] and in the
    captured value for [verify]. *)
Definition authPhoneInv (st : Auth.State) : Prop :=
  (Auth.step st = Auth.OTP ->
   String.length (stripNonDigits (Auth.phone st)) = 10%nat)
  /\ Forall (fun c =>
               match c with
               | Auth.AfterSend =>
                   String.length (stripNonDigits (Auth.phone st)) = 10%nat
               | Auth.AfterVerify p =>
                   String.length (stripNonDigits p) = 10%nat
               end) (Auth.waiting st).

(** The condition under which [App] renders the view of the current screen:
    [selectedMerchant] for MERCHANT_DETAIL, [order] for TRACKING and UNLOCK. *)
Definition viewMounted (s : Session) : bool :=
  match screen s with
  | SCREENS.MERCHANT_DETAIL => isSome (selectedMerchant s)
  | SCREENS.TRACKING | SCREENS.UNLOCK => isSome (order s)
  | _ => true
  end.

(** The timeouts of the order effect read as a table: status, next status,
    delay in milliseconds. *)
Definition delays : list (string * string * Z) :=
  [ ("PLACED", "ACCEPTED", 1500); ("ACCEPTED", "PREPARING", 1800);
    ("PREPARING", "READY", 2600); ("READY", "PICKED_UP", 1800);
    ("PICKED_UP", "IN_FLIGHT", 1800); ("IN_FLIGHT", "DELIVERED", 2800) ].

(** The walk through all seven screens: sign in, pick button [i] of the
    locations and button [j] of its arrive points, continue, press button
    [k] of the merchants shown for search text [q], check out with draw
    [rnd], let the timer fire six times, open the arrive point. *)
Definition toMerchants (u : User) (i j : nat) : list Event :=
  [ LandingContinue; AuthVerified u; PickLocation i; PickArrivePoint j;
    DestinationContinue ].

Definition fromMerchants (q : string) (k : nat) (rnd : Z) : list Event :=
  MerchantClick q k :: DetailCheckout rnd
  :: repeat (TimerFire 0) 6 ++ [ TrackingOpenArrivePoint ].

(** Whether the [k] draws from [z] on all give an identifier of eight
    characters. *)
Fixpoint idsHaveEightChars (k : nat) (z : Z) : bool :=
  match k with
  | O => true
  | S k' =>
      (String.length (orderId (z + 10000)) =? 8)%nat
      && idsHaveEightChars k' (z + 1)
  end.

(** A code field as [setOtp] leaves it: digits only, six at most. *)
Definition otpField (s : string) : Prop :=
  allDigits s = true /\ (String.length s <= 6)%nat.

Definition signIn : list Auth.Event :=
  [ Auth.ChangePhone "(317) 555-0123"; Auth.ClickSend; Auth.TimeoutElapsed 0;
    Auth.ChangeOtp "123456"; Auth.ClickVerify; Auth.TimeoutElapsed 0 ].

(** The number is shortened while [send] waits on its timeout. *)
Definition signInEdited : list Auth.Event :=
  [ Auth.ChangePhone "(317) 555-0123"; Auth.ClickSend; Auth.ChangePhone "317";
    Auth.TimeoutElapsed 0; Auth.ChangeOtp "123456"; Auth.ClickVerify;
    Auth.TimeoutElapsed 0 ].

(** ** Proof automation *)

(** Splits the next [match] or [if] of the goal on its scrutinee. *)
Ltac break_goal :=
  match goal with
  | |- context [match ?x with _ => _ end] =>
      lazymatch x with
      | context [match _ with _ => _ end] => fail
      | _ => destruct x eqn:?
      end
  end.

Ltac unfold_handlers :=
  unfold handle, fire, clickLocation, clickArrivePoint, clickMerchant,
    clickOpenArrivePoint, onAuthed, onPickLocation, onPickArrivePoint,
    onSelect, onCheckout, onUnlock in *.

(** Closes [(b = true <-> l <> []) /\ length l <= 1] on a concrete flag [b]
    and a concrete list [l] of at most one element. *)
Ltac flight_done :=
  split;
  [ split;
    [ let H := fresh in
      intros H; first [discriminate H | (let E := fresh in intros E; discriminate E)]
    | let H := fresh in
      intros H; first [reflexivity | (exfalso; apply H; reflexivity)] ]
  | simpl; lia ].

(** * Properties *)

(** ** Field-wise behaviour of the effects *)

Lemma screens_eqb_spec a b : reflect (a = b) (SCREENS.eqb a b).
Proof. destruct a, b; simpl; constructor; congruence. Qed.

Lemma truthy_false x : truthy x = false <-> x = "".
Proof.
  unfold truthy. destruct (String.eqb_spec x ""); simpl; split; congruence.
Qed.

Lemma incomplete_true s :
  incomplete s = true <-> locationId s = "" \/ arrivePointId s = "".
Proof.
  unfold incomplete. rewrite orb_true_iff, !negb_true_iff, !truthy_false.
  reflexivity.
Qed.

Lemma guard_keeps s :
  user (guard s) = user s /\ locationId (guard s) = locationId s
  /\ arrivePointId (guard s) = arrivePointId s
  /\ selectedMerchantId (guard s) = selectedMerchantId s
  /\ order (guard s) = order s /\ timers (guard s) = timers s
  /\ orderDep (guard s) = orderDep s.
Proof.
  unfold guard.
  destruct (SCREENS.eqb (screen s) SCREENS.LANDING); [tauto|].
  destruct (negb (isSome (user s)) && _);
    destruct (isSome (user s) && _ && _ && _); simpl; tauto.
Qed.

(** The screen the guard leaves, spelled out by cases. *)
Lemma guard_screen s :
  screen (guard s) =
    match screen s with
    | SCREENS.LANDING => SCREENS.LANDING
    | SCREENS.AUTH => SCREENS.AUTH
    | SCREENS.DESTINATION =>
        if isSome (user s) then SCREENS.DESTINATION else SCREENS.AUTH
    | sc =>
        if isSome (user s)
        then if incomplete s then SCREENS.DESTINATION else sc
        else SCREENS.AUTH
    end.
Proof.
  unfold guard, incomplete.
  destruct (screen s) eqn:E; simpl; rewrite ?E;
    destruct (isSome (user s)); simpl; rewrite ?E; try reflexivity;
    destruct (negb (truthy (locationId s)) || negb (truthy (arrivePointId s)));
    simpl; rewrite ?E; reflexivity.
Qed.

Lemma orderEffect_keeps s :
  screen (orderEffect s) = screen s /\ user (orderEffect s) = user s
  /\ locationId (orderEffect s) = locationId s
  /\ arrivePointId (orderEffect s) = arrivePointId s
  /\ selectedMerchantId (orderEffect s) = selectedMerchantId s
  /\ order (orderEffect s) = order s.
Proof.
  unfold orderEffect. destruct (depEqb _ _); simpl; tauto.
Qed.

Lemma effects_keeps s :
  user (effects s) = user s /\ locationId (effects s) = locationId s
  /\ arrivePointId (effects s) = arrivePointId s
  /\ selectedMerchantId (effects s) = selectedMerchantId s
  /\ order (effects s) = order s.
Proof.
  unfold effects.
  destruct (guard_keeps (orderEffect s)) as (-> & -> & -> & -> & -> & _).
  destruct (orderEffect_keeps s) as (_ & -> & -> & -> & -> & ->). tauto.
Qed.

Lemma effects_screen s :
  screen (effects s) = screen (guard s).
Proof.
  unfold effects. rewrite !guard_screen.
  destruct (orderEffect_keeps s) as (-> & -> & Hl & Ha & _).
  unfold incomplete. rewrite Hl, Ha. reflexivity.
Qed.

Lemma guard_idem s : guard (guard s) = guard s.
Proof.
  destruct s as [sc u l a m o ts d]. unfold guard; simpl.
  destruct (negb (truthy l) || negb (truthy a)) eqn:E;
    destruct sc, u; simpl; rewrite ?E; reflexivity.
Qed.

(** Every state of a run has been through the effects. *)
Lemma run_snoc es e s : run (es ++ [e]) s = step e (run es s).
Proof. unfold run. rewrite fold_left_app. reflexivity. Qed.

Lemma reachable_run loc es : reachable loc (run es (boot loc)).
Proof.
  induction es as [|e es IH] using rev_ind.
  - apply reach_boot.
  - rewrite run_snoc. apply reach_step, IH.
Qed.

Lemma reachable_is_run loc s :
  reachable loc s -> exists es, s = run es (boot loc).
Proof.
  induction 1 as [|e s _ [es ->]].
  - exists []. reflexivity.
  - exists (es ++ [e])%list. symmetry. apply run_snoc.
Qed.

Lemma reachable_settled loc s : reachable loc s -> exists r, s = effects r.
Proof. destruct 1; eexists; reflexivity. Qed.

(** ** The guard *)

Lemma guard_without_user s :
  user s = None ->
  screen (guard s) =
    if SCREENS.eqb (screen s) SCREENS.LANDING then SCREENS.LANDING
    else SCREENS.AUTH.
Proof.
  intros Hu. rewrite guard_screen, Hu. destruct (screen s); reflexivity.
Qed.

Lemma guard_incomplete s :
  user s <> None -> incomplete s = true ->
  screen (guard s) =
    match screen s with
    | SCREENS.LANDING => SCREENS.LANDING
    | SCREENS.AUTH => SCREENS.AUTH
    | _ => SCREENS.DESTINATION
    end.
Proof.
  intros Hu Hi. rewrite guard_screen, Hi.
  destruct (user s); [|congruence]. destruct (screen s); reflexivity.
Qed.

(** C1.  Whatever the intents were, a session without a user shows LANDING
    or AUTH once the guard has run: on any state without a user the guard
    leaves LANDING alone and turns every other screen into AUTH. *)
Theorem unauthenticated_screen_is_landing_or_auth :
  (forall s, user s = None -> screen s <> SCREENS.LANDING ->
             screen (guard s) = SCREENS.AUTH)
  /\ (forall s, user s = None ->
                screen (effects s) = SCREENS.LANDING
                \/ screen (effects s) = SCREENS.AUTH)
  /\ (forall loc es, user (run es (boot loc)) = None ->
                     screen (run es (boot loc)) = SCREENS.LANDING
                     \/ screen (run es (boot loc)) = SCREENS.AUTH).
Proof.
  assert (A : forall s, user s = None ->
                screen (effects s) = SCREENS.LANDING
                \/ screen (effects s) = SCREENS.AUTH).
  { intros s Hu. rewrite effects_screen, (guard_without_user s Hu).
    destruct (SCREENS.eqb _ _); auto. }
  split; [|split]; trivial.
  - intros s Hu Hs. rewrite (guard_without_user s Hu).
    destruct (screens_eqb_spec (screen s) SCREENS.LANDING); congruence.
  - intros loc es Hu.
    destruct (reachable_settled loc _ (reachable_run loc es)) as [r Hr].
    rewrite Hr in *. apply A.
    destruct (effects_keeps r) as (<- & _). exact Hu.
Qed.

Lemma unauthenticated_screen_witness :
  let s := setScreen SCREENS.TRACKING initial in
  user s = None /\ screen s <> SCREENS.LANDING
  /\ screen (guard s) = SCREENS.AUTH.
Proof.
  split; [reflexivity|]. split; [discriminate|].
  apply (proj1 unauthenticated_screen_is_landing_or_auth);
    [reflexivity | discriminate].
Defined.


(** ** Invariants of the reachable states *)

Lemma handle_timer_keeps i s :
  screen (fire i s) = screen s /\ user (fire i s) = user s
  /\ locationId (fire i s) = locationId s
  /\ arrivePointId (fire i s) = arrivePointId s
  /\ selectedMerchantId (fire i s) = selectedMerchantId s.
Proof. unfold fire. destruct (nth_error _ _); simpl; tauto. Qed.

Lemma effects_screen_cases s :
  screen (effects s) = screen s
  \/ screen (effects s) = SCREENS.AUTH
  \/ screen (effects s) = SCREENS.DESTINATION.
Proof.
  rewrite effects_screen, guard_screen.
  destruct (screen s), (isSome (user s)), (incomplete s); auto.
Qed.

(** The guard alone establishes the navigation invariant. *)
Lemma navInv_effects s : navInv (effects s).
Proof.
  unfold navInv, incomplete.
  destruct (effects_keeps s) as (-> & -> & -> & _).
  rewrite effects_screen, guard_screen. fold (incomplete s).
  destruct (user s) as [u|]; simpl.
  - split; [discriminate|].
    destruct (screen s), (incomplete s); simpl; congruence.
  - destruct (screen s); simpl; split; auto; discriminate.
Qed.

Lemma navInv_reachable loc s : reachable loc s -> navInv s.
Proof. intros H. destruct (reachable_settled loc s H) as [r ->]. apply navInv_effects. Qed.

Lemma depEqb_refl d : depEqb d d = true.
Proof. destruct d; simpl; [apply String.eqb_refl | reflexivity]. Qed.

Lemma orderEffect_idem s : orderEffect (orderEffect s) = orderEffect s.
Proof.
  unfold orderEffect at 2 3.
  destruct (depEqb _ _) eqn:E.
  - unfold orderEffect. rewrite E. reflexivity.
  - unfold orderEffect. simpl. rewrite depEqb_refl. reflexivity.
Qed.

Lemma orderEffect_guard s : orderEffect (guard s) = guard (orderEffect s).
Proof.
  destruct s as [sc u l a m o ts d]. unfold orderEffect, guard; simpl.
  destruct (negb (truthy l) || negb (truthy a)) eqn:E;
    destruct sc, u; simpl;
    destruct (depEqb (option_map Order.status o) d) eqn:D;
    simpl; rewrite ?E; reflexivity.
Qed.

Lemma effects_idem s : effects (effects s) = effects s.
Proof.
  unfold effects.
  rewrite orderEffect_guard, orderEffect_idem. apply guard_idem.
Qed.

Lemma effects_idle loc s : reachable loc s -> effects s = s.
Proof.
  intros H. destruct (reachable_settled loc s H) as [r ->].
  apply effects_idem.
Qed.

(** An event that leaves the committed state alone leaves the session alone. *)
Lemma step_idle loc e s : reachable loc s -> handle e s = s -> step e s = s.
Proof. intros H E. unfold step. rewrite E. eapply effects_idle, H. Qed.

(** *** Destination *)

Lemma find_by_id_in {A} (key : A -> string) (k : string) (x : A) (l : list A) :
  In x l -> key x = k ->
  exists y, find (fun z => (key z =? k)%string) l = Some y
            /\ In y l /\ key y = k.
Proof.
  induction l as [|z l IH]; simpl; [tauto|].
  intros Hin Hk. destruct (String.eqb_spec (key z) k) as [E|E].
  - exists z. auto.
  - destruct Hin as [-> | Hin]; [congruence|].
    destruct (IH Hin Hk) as (y & Hf & Hy & Hky). exists y. auto.
Qed.

Lemma destinationInv_fields s s' :
  locationId s' = locationId s -> arrivePointId s' = arrivePointId s ->
  destinationInv s -> destinationInv s'.
Proof.
  unfold destinationInv, arrivePoint, location. intros -> ->. trivial.
Qed.

Lemma destinationInv_pick ap l s :
  findLocation (locationId s) = Some l -> In ap (Location.arrivePoints l) ->
  destinationInv (onPickArrivePoint (ArrivePoint.id ap) s).
Proof.
  intros Hl Hin _. unfold arrivePoint, location. simpl. rewrite Hl.
  destruct (find_by_id_in ArrivePoint.id (ArrivePoint.id ap) ap _ Hin eq_refl)
    as (y & Hf & Hy & Hk).
  exists l, y. auto.
Qed.

Lemma destinationInv_handle e s : destinationInv s -> destinationInv (handle e s).
Proof.
  intros H.
  destruct e; unfold handle;
    try (destruct (handle_timer_keeps i s) as (_ & _ & El & Ea & _);
         apply (destinationInv_fields s _ El Ea H));
    destruct (screen s); try exact H;
    repeat break_goal; try exact H;
    try (apply (destinationInv_fields s); [reflexivity | reflexivity | exact H]).
  - unfold clickLocation. break_goal; [|exact H].
    intros Hne. simpl in Hne. congruence.
  - unfold clickArrivePoint. repeat break_goal; try exact H.
    eapply destinationInv_pick; eauto using nth_error_In.
  - unfold clickMerchant. repeat break_goal; exact H.
  - unfold clickOpenArrivePoint. break_goal; exact H.
Qed.

Lemma destinationInv_reachable loc s : reachable loc s -> destinationInv s.
Proof.
  induction 1 as [|e s _ IH].
  - intros Hne. exfalso. apply Hne.
    unfold boot. destruct (effects_keeps (deepLink loc initial)) as (_ & _ & -> & _).
    destruct loc as [l|]; simpl; [destruct (truthy l)|]; reflexivity.
  - unfold step.
    destruct (effects_keeps (handle e s)) as (_ & El & Ea & _).
    apply (destinationInv_fields (handle e s) _ El Ea).
    apply destinationInv_handle, IH.
Qed.

(** *** Merchants *)

Lemma filtered_in q m : In m (filtered q) -> In m MERCHANTS.
Proof.
  unfold filtered. destruct (negb (truthy _)); [trivial|].
  intros H. apply filter_In in H. tauto.
Qed.

Lemma findMerchant_known m :
  In m MERCHANTS -> findMerchant (Merchant.id m) = Some m.
Proof.
  simpl. intros [<- | [<- | [<- | []]]]; reflexivity.
Qed.

Lemma merchantInv_handle e s : merchantInv s -> merchantInv (handle e s).
Proof.
  unfold merchantInv.
  destruct s as [sc u l a m o ts d]; simpl. intros [Hm Hs].
  destruct e; unfold_handlers; simpl;
    try (destruct (nth_error ts i); simpl; split; assumption);
    destruct sc; simpl in *; repeat break_goal; simpl in *;
    split; intros; subst; simpl in *;
    try discriminate; try tauto; try (intuition congruence); eauto.
  match goal with
  | H : Some _ = Some _ |- _ => injection H as <-
  end.
  match goal with
  | H : nth_error (filtered _) _ = Some ?x |- _ =>
      exists x; apply nth_error_In, filtered_in in H;
      auto using findMerchant_known
  end.
Qed.

Lemma merchantInv_effects s : merchantInv s -> merchantInv (effects s).
Proof.
  unfold merchantInv. intros [Hm Hs].
  destruct (effects_keeps s) as (_ & _ & _ & -> & _).
  split; [exact Hm|]. intros E. apply Hs.
  destruct (effects_screen_cases s) as [<- | [E' | E']]; congruence.
Qed.

Lemma merchantInv_reachable loc s : reachable loc s -> merchantInv s.
Proof.
  induction 1 as [|e s _ IH].
  - apply merchantInv_effects. unfold merchantInv.
    destruct loc as [l|]; simpl; [destruct (truthy l)|]; simpl;
      split; intros; discriminate.
  - apply merchantInv_effects, merchantInv_handle, IH.
Qed.

(** *** Orders *)

(** The effect body reads nothing of the order but its status. *)
Lemma orderEffectBody_status o1 o2 :
  option_map Order.status o1 = option_map Order.status o2 ->
  orderEffectBody o1 = orderEffectBody o2.
Proof.
  destruct o1, o2; simpl; intros E; try discriminate; [|reflexivity].
  injection E as E. rewrite E. reflexivity.
Qed.

Lemma depEqb_eq a b : depEqb a b = true -> a = b.
Proof.
  destruct a, b; simpl; try discriminate; [|reflexivity].
  intros E. apply String.eqb_eq in E. congruence.
Qed.

(** What a pending timer looks like: there is an order, it sits at place [n]
    of [steps], and the one timer carries the status at place [n + 1]. *)
Lemma pending_timer o i t :
  In (Order.status o) steps ->
  nth_error (orderEffectBody (Some o)) i = Some t ->
  i = O /\ next t <> Order.status o
  /\ In (next t) steps
  /\ exists n, findIndex (Order.status o) steps = Some n
               /\ findIndex (next t) steps = Some (S n).
Proof.
  destruct o as [oid st mn et]. simpl.
  intros [<- | [<- | [<- | [<- | [<- | [<- | [<- | []]]]]]]];
    cbn; intros Hn; destruct i as [|[|i]]; cbn in Hn; try discriminate;
    injection Hn as <-; cbn;
    (split; [reflexivity|]); (split; [discriminate|]);
    (split; [tauto|]); eexists; split; reflexivity.
Qed.

(** The three things an event can do to the order cell. *)
Lemma handle_order_cases e s :
  orderInv s ->
  (order (handle e s) = order s /\ timers (handle e s) = timers s
   /\ orderDep (handle e s) = orderDep s
   /\ (screen (handle e s) = screen s
       \/ (screen (handle e s) <> SCREENS.TRACKING
           /\ screen (handle e s) <> SCREENS.UNLOCK)
       \/ order s <> None))
  \/ (exists m rnd,
        e = DetailCheckout rnd /\ screen s = SCREENS.MERCHANT_DETAIL
        /\ selectedMerchant s = Some m
        /\ handle e s = onCheckout m rnd s)
  \/ (exists o t,
        e = TimerFire O /\ order s = Some o
        /\ nth_error (orderEffectBody (Some o)) O = Some t
        /\ order (handle e s) = Some (spreadStatus (Some o) (next t))
        /\ orderDep (handle e s) = orderDep s
        /\ screen (handle e s) = screen s).
Proof.
  intros (Hc & Ht & Hd & Hs).
  destruct e; unfold handle.
  12: {
    unfold fire. destruct (nth_error (timers s) i) as [t|] eqn:En.
    - right; right. rewrite Ht in En.
      destruct (order s) as [o|] eqn:Eo.
      + destruct (pending_timer o i t (proj1 (Hc o eq_refl)) En) as (-> & _).
        exists o, t. repeat split; try assumption; reflexivity.
      + destruct i; discriminate En.
    - left. auto. }
  all: destruct (screen s) eqn:Esc; auto 6.
  all: unfold clickLocation, clickArrivePoint, clickMerchant,
         clickOpenArrivePoint.
  all: repeat break_goal; auto 6.
  all: try (left; simpl; repeat split; auto;
            right; left; split; discriminate).
  right; left; eauto 8.
Qed.

(** After the effect has run, the pending timers are those of the current
    status, provided the timers it may have left alone were already so. *)
Lemma orderEffect_establishes x :
  (option_map Order.status (order x) = orderDep x ->
   timers x = orderEffectBody (order x)) ->
  order (effects x) = order x
  /\ timers (effects x) = orderEffectBody (order x)
  /\ orderDep (effects x) = option_map Order.status (order x).
Proof.
  intros H. unfold effects.
  destruct (guard_keeps (orderEffect x)) as (_ & _ & _ & _ & -> & -> & ->).
  unfold orderEffect.
  destruct (depEqb _ _) eqn:E; simpl; [|auto].
  apply depEqb_eq in E. auto.
Qed.

Lemma completeOrder_new m rnd : completeOrder (newOrder m rnd).
Proof.
  unfold completeOrder, newOrder; simpl.
  repeat split; try discriminate. auto.
Qed.

Lemma orderInv_step e s : orderInv s -> orderInv (step e s).
Proof.
  intros Hinv.
  destruct (handle_order_cases e s Hinv)
    as [(Eo & Et & Ed & Es) | [(m & rnd & -> & Esc & Em & Eh)
                              | (o & t & -> & Eo & Ent & Eo' & Ed & Es)]];
    destruct Hinv as (Hc & Ht & Hd & Hs); unfold step.
  - destruct (orderEffect_establishes (handle e s)) as (Ro & Rt & Rd).
    { intros _. congruence. }
    unfold orderInv. rewrite Ro, Rt, Rd, Eo.
    split; [exact Hc|]. split; [reflexivity|]. split; [reflexivity|].
    intros Hscr.
    destruct (effects_screen_cases (handle e s)) as [E | [E | E]];
      [rewrite E in Hscr | rewrite E in Hscr; destruct Hscr; discriminate
       | rewrite E in Hscr; destruct Hscr; discriminate].
    destruct Es as [Es | [[E1 E2] | Es]];
      [apply Hs; congruence | tauto | exact Es].
  - rewrite Eh.
    destruct (orderEffect_establishes (onCheckout m rnd s)) as (Ro & Rt & Rd).
    { intros E.
      change (timers s = orderEffectBody (Some (newOrder m rnd))).
      rewrite Ht. apply orderEffectBody_status.
      rewrite <- Hd. symmetry. exact E. }
    unfold orderInv. rewrite Ro, Rt, Rd.
    split; [|split; [reflexivity|split; [reflexivity|discriminate]]].
    intros o [= <-]. apply completeOrder_new.
  - destruct (pending_timer o O t (proj1 (Hc o Eo)) Ent)
      as (_ & Hne & Hin & _).
    destruct (orderEffect_establishes (handle (TimerFire O) s))
      as (Ro & Rt & Rd).
    { rewrite Eo', Ed, Hd, Eo. simpl. congruence. }
    unfold orderInv. rewrite Ro, Rt, Rd, Eo'.
    split; [|split; [reflexivity|split; [reflexivity|discriminate]]].
    intros o' [= <-]. destruct (Hc o Eo) as (_ & H1 & H2 & H3).
    repeat split; assumption.
Qed.

Lemma orderInv_reachable loc s : reachable loc s -> orderInv s.
Proof.
  induction 1 as [|e s _ IH]; [|apply orderInv_step, IH].
  unfold orderInv.
  unfold boot, deepLink.
  destruct loc as [l|]; [destruct (truthy l)|]; cbn;
    (split; [intros o E; discriminate E|]); (split; [reflexivity|]);
    (split; [reflexivity|]); intros [E | E]; discriminate E.
Qed.

Lemma idx_defined o : In (Order.status o) steps -> exists n, idx o = Some n.
Proof.
  unfold idx. simpl.
  intros [<- | [<- | [<- | [<- | [<- | [<- | [<- | []]]]]]]];
    eexists; reflexivity.
Qed.

Lemma no_timer_when_delivered o :
  Order.status o = "DELIVERED" -> orderEffectBody (Some o) = [].
Proof. intros E. unfold orderEffectBody. rewrite E. reflexivity. Qed.

Lemma timer_when_not_delivered o :
  In (Order.status o) steps -> Order.status o <> "DELIVERED" ->
  exists t, nth_error (orderEffectBody (Some o)) O = Some t.
Proof.
  destruct o as [oid st mn et]. simpl.
  intros [<- | [<- | [<- | [<- | [<- | [<- | [<- | []]]]]]]] Hne;
    try congruence; eexists; reflexivity.
Qed.

Lemma oneStepAfter_fire o t :
  In (Order.status o) steps ->
  nth_error (orderEffectBody (Some o)) O = Some t ->
  oneStepAfter o (spreadStatus (Some o) (next t)).
Proof.
  intros Hin Hn.
  destruct (pending_timer o O t Hin Hn) as (_ & _ & _ & n & H1 & H2).
  split; [repeat split|]. exists n. auto.
Qed.

(** The three ways one interaction can leave the order of a reachable
    session: untouched, moved one place by the pending timer, or replaced
    by the order of a checkout. *)
Lemma step_order_cases loc s e o :
  reachable loc s -> order s = Some o ->
  exists o', order (step e s) = Some o'
    /\ (o' = o
        \/ (e = TimerFire O /\ Order.status o <> "DELIVERED"
            /\ oneStepAfter o o')
        \/ (exists m rnd, e = DetailCheckout rnd
              /\ screen s = SCREENS.MERCHANT_DETAIL
              /\ selectedMerchant s = Some m /\ o' = newOrder m rnd)).
Proof.
  intros Hr Ho. pose proof (orderInv_reachable loc s Hr) as Hinv.
  unfold step. destruct (effects_keeps (handle e s)) as (_ & _ & _ & _ & ->).
  destruct (handle_order_cases e s Hinv)
    as [(Eo & _) | [(m & rnd & -> & Esc & Em & Eh)
                   | (o1 & t & -> & Eo & Ent & Eo' & _)]].
  - exists o. split; [congruence | auto].
  - exists (newOrder m rnd). rewrite Eh. split; [reflexivity|].
    right; right. eauto 6.
  - assert (o1 = o) as -> by congruence.
    destruct Hinv as (Hc & _). destruct (Hc o Ho) as (Hin & _).
    exists (spreadStatus (Some o) (next t)). split; [exact Eo'|].
    right; left. split; [reflexivity|]. split.
    + intros Ed. rewrite (no_timer_when_delivered o Ed) in Ent.
      discriminate Ent.
    + apply oneStepAfter_fire; assumption.
Qed.

Lemma sameOrder_refl o : sameOrder o o.
Proof. repeat split. Qed.


(** ** Picking a location *)

(** C4, as stated, fails: picking the location that is already selected
    clears the arrive point chosen for it. *)
Lemma reselecting_location_clears_arrive_point :
  (let s := run toDestination (boot None) in
   locationId s = "vp-building-a" /\ arrivePointId s = "AP-201"
   /\ nth_error (map Location.id LOCATIONS) 1 = Some "vp-building-a"
   /\ locationId (step (PickLocation 1) s) = "vp-building-a"
   /\ arrivePointId (step (PickLocation 1) s) = "")
  /\ ~ (forall s lid, locationId s = lid ->
          arrivePointId (onPickLocation lid s) = arrivePointId s).
Proof.
  split; [vm_compute; repeat split|].
  intros H.
  specialize (H (run toDestination (boot None)) "vp-building-a" eq_refl).
  vm_compute in H. discriminate H.
Qed.

(** C4, amended.  Picking a location sets [locationId] and always empties
    [arrivePointId], whether or not the location is a different one; picking
    the same location twice in a row gives the state of picking it once. *)
Theorem pick_location_clears_arrive_point (lid : string) (s : Session) :
  locationId (onPickLocation lid s) = lid
  /\ arrivePointId (onPickLocation lid s) = ""
  /\ onPickLocation lid (onPickLocation lid s) = onPickLocation lid s
  /\ (forall i l, nth_error LOCATIONS i = Some l ->
        clickLocation i s = onPickLocation (Location.id l) s).
Proof.
  repeat split.
  intros i l H. unfold clickLocation. rewrite H. reflexivity.
Qed.

(** ** Unlocking *)

Lemma canUnlock_delivered o :
  canUnlock o = true <-> Order.status o = "DELIVERED".
Proof. unfold canUnlock. apply String.eqb_eq. Qed.

(** The one way into the UNLOCK screen. *)
Lemma handle_enters_unlock e s :
  screen (handle e s) = SCREENS.UNLOCK ->
  screen s = SCREENS.UNLOCK
  \/ (e = TrackingOpenArrivePoint /\ screen s = SCREENS.TRACKING
      /\ exists o, order s = Some o /\ Order.status o = "DELIVERED").
Proof.
  destruct e; unfold handle;
    try (destruct (handle_timer_keeps i s) as (-> & _); auto);
    destruct (screen s) eqn:Esc; auto;
    unfold clickLocation, clickArrivePoint, clickMerchant,
      clickOpenArrivePoint;
    repeat break_goal; simpl; try rewrite Esc; auto; try discriminate.
  intros _. right. repeat split. eexists. split; [reflexivity|].
  apply canUnlock_delivered. assumption.
Qed.

Lemma unlock_screen_delivered loc s :
  reachable loc s -> screen s = SCREENS.UNLOCK ->
  exists o, order s = Some o /\ Order.status o = "DELIVERED".
Proof.
  induction 1 as [|e s Hr IH].
  - unfold boot, deepLink.
    destruct loc as [l|]; [destruct (truthy l)|]; cbn; discriminate.
  - intros Hs.
    assert (Hh : screen (handle e s) = SCREENS.UNLOCK).
    { unfold step in Hs.
      destruct (effects_screen_cases (handle e s)) as [E | [E | E]];
        congruence. }
    assert (Ho : exists o, order s = Some o /\ Order.status o = "DELIVERED"
                           /\ screen s <> SCREENS.MERCHANT_DETAIL).
    { destruct (handle_enters_unlock e s Hh) as [E | (_ & E & o & Ho & Ed)].
      - destruct (IH E) as (o & Ho & Ed). exists o.
        repeat split; trivial. congruence.
      - exists o. repeat split; trivial. congruence. }
    destruct Ho as (o & Ho & Ed & Hc).
    destruct (step_order_cases loc s e o Hr Ho)
      as (o' & Ho' & [-> | [(_ & Hne & _) | (m & rnd & _ & Hsc & _)]]);
      [eauto | congruence | congruence].
Qed.

(** C5.  The "Open Arrive Point" button leads to UNLOCK only from TRACKING
    with an order whose status is DELIVERED; pressed in any other state it
    changes nothing, the screen included; and a session that shows UNLOCK
    has a delivered order. *)
Theorem unlock_requires_delivered (s : Session) :
  (screen (handle TrackingOpenArrivePoint s) = SCREENS.UNLOCK ->
   screen s = SCREENS.UNLOCK
   \/ (screen s = SCREENS.TRACKING
       /\ exists o, order s = Some o /\ Order.status o = "DELIVERED"))
  /\ (option_map Order.status (order s) <> Some "DELIVERED" ->
      handle TrackingOpenArrivePoint s = s)
  /\ (forall loc, reachable loc s ->
      option_map Order.status (order s) <> Some "DELIVERED" ->
      step TrackingOpenArrivePoint s = s
      /\ screen (step TrackingOpenArrivePoint s) = screen s)
  /\ (screen s = SCREENS.TRACKING ->
      option_map Order.status (order s) = Some "DELIVERED" ->
      screen (handle TrackingOpenArrivePoint s) = SCREENS.UNLOCK)
  /\ (forall loc, reachable loc s -> screen s = SCREENS.UNLOCK ->
      option_map Order.status (order s) = Some "DELIVERED").
Proof.
  assert (Idle : option_map Order.status (order s) <> Some "DELIVERED" ->
                 handle TrackingOpenArrivePoint s = s).
  { intros Hne. unfold handle, clickOpenArrivePoint.
    destruct (screen s); repeat break_goal; try reflexivity.
    match goal with
    | E : canUnlock _ = true |- _ => apply canUnlock_delivered in E
    end.
    simpl in Hne. congruence. }
  split; [|split; [exact Idle|split; [|split]]].
  - intros H.
    destruct (handle_enters_unlock _ _ H) as [E | (_ & E & Ho)]; auto.
  - intros loc Hr Hne.
    assert (E : step TrackingOpenArrivePoint s = s)
      by (apply (step_idle loc); auto).
    rewrite E. auto.
  - intros Hs Hd. unfold handle, clickOpenArrivePoint. rewrite Hs.
    destruct (order s) as [o|]; [|discriminate Hd].
    injection Hd as Hd. apply canUnlock_delivered in Hd. rewrite Hd.
    reflexivity.
  - intros loc Hr Hs.
    destruct (unlock_screen_delivered loc s Hr Hs) as (o & -> & Hd).
    simpl. congruence.
Qed.

Lemma unlock_requires_delivered_witness :
  let s := run toTracking (boot None) in
  option_map Order.status (order s) <> Some "DELIVERED"
  /\ screen s = SCREENS.TRACKING
  /\ handle TrackingOpenArrivePoint s = s.
Proof.
  intros s.
  assert (H : option_map Order.status (order s) <> Some "DELIVERED")
    by (vm_compute; discriminate).
  split; [exact H|]. split; [reflexivity|].
  exact (proj1 (proj2 (unlock_requires_delivered s)) H).
Defined.

(** ** Selecting a merchant *)

Lemma merchant3_closed m :
  In m MERCHANTS -> Merchant.id m = "merchant-3" -> Merchant.open m = false.
Proof.
  simpl. intros [<- | [<- | [<- | []]]]; simpl; intros E;
    try discriminate E; reflexivity.
Qed.

Lemma click_closed_merchant q i m s :
  nth_error (filtered q) i = Some m -> Merchant.open m = false ->
  handle (MerchantClick q i) s = s.
Proof.
  intros Hn Ho. unfold handle, clickMerchant. rewrite Hn, Ho.
  destruct (screen s); repeat break_goal; reflexivity.
Qed.

(** C6.  A closed merchant cannot be selected.  The button of a merchant
    that is not open, the one of "merchant-3" in particular, changes nothing
    in any state; whenever an interaction ends on MERCHANT_DETAIL the
    selected id resolves to a merchant of [MERCHANTS] that is open; and the
    selected id of a session is never "merchant-3". *)
Theorem closed_merchant_not_selectable (loc : option string) (s : Session) :
  reachable loc s ->
  (forall r q i m, nth_error (filtered q) i = Some m ->
     Merchant.open m = false ->
     clickMerchant q i r = r /\ handle (MerchantClick q i) r = r)
  /\ (forall q i m, nth_error (filtered q) i = Some m ->
        Merchant.id m = "merchant-3" ->
        step (MerchantClick q i) s = s)
  /\ (forall e, screen (step e s) = SCREENS.MERCHANT_DETAIL ->
        exists m, selectedMerchant (step e s) = Some m
                  /\ In m MERCHANTS /\ Merchant.open m = true)
  /\ selectedMerchantId s <> Some "merchant-3".
Proof.
  intros Hr. split; [|split; [|split]].
  - intros r q i m Hn Ho. split.
    + unfold clickMerchant. rewrite Hn, Ho. reflexivity.
    + apply (click_closed_merchant q i m r Hn Ho).
  - intros q i m Hn Hid. apply (step_idle loc); [exact Hr|].
    apply (click_closed_merchant q i m s Hn).
    apply merchant3_closed; [|exact Hid].
    apply filtered_in with (q := q). apply nth_error_In with (n := i), Hn.
  - intros e Hs.
    destruct (merchantInv_reachable loc _ (reach_step loc e s Hr)) as [Hm Hd].
    unfold selectedMerchant.
    destruct (selectedMerchantId (step e s)) as [mid|] eqn:E;
      [|exfalso; apply (Hd Hs); reflexivity].
    destruct (Hm mid eq_refl) as (m & Hf & Ho & _).
    exists m. repeat split; trivial.
    unfold findMerchant in Hf. apply find_some in Hf. tauto.
  - intros E.
    destruct (merchantInv_reachable loc s Hr) as [Hm _].
    destruct (Hm _ E) as (m & Hf & Ho & _).
    vm_compute in Hf. injection Hf as <-. discriminate Ho.
Qed.

Lemma closed_merchant_witness :
  let s := run (toDestination ++ [DestinationContinue]) (boot None) in
  screen s = SCREENS.MERCHANTS
  /\ option_map Merchant.id (nth_error (filtered "") 2) = Some "merchant-3"
  /\ step (MerchantClick "" 2) s = s
  /\ screen (step (MerchantClick "" 0) s) = SCREENS.MERCHANT_DETAIL.
Proof.
  intros s. split; [reflexivity|]. split; [reflexivity|].
  split; [|reflexivity].
  assert (Hr : reachable None s) by apply reachable_run.
  refine (proj1 (proj2 (closed_merchant_not_selectable None s Hr))
                "" 2%nat _ eq_refl eq_refl).
Defined.

(** ** Destination *)

Lemma handle_location_change e s :
  locationId (handle e s) <> locationId s -> arrivePointId (handle e s) = "".
Proof.
  destruct e; unfold handle;
    try (destruct (handle_timer_keeps i s) as (_ & _ & -> & _); congruence);
    destruct (screen s); try congruence;
    unfold clickLocation, clickArrivePoint, clickMerchant,
      clickOpenArrivePoint;
    repeat break_goal; simpl; congruence.
Qed.

Lemma handle_arrive_point_change e s :
  arrivePointId (handle e s) = arrivePointId s
  \/ arrivePointId (handle e s) = ""
  \/ (locationId (handle e s) = locationId s
      /\ exists l ap, location s = Some l
           /\ In ap (Location.arrivePoints l)
           /\ arrivePointId (handle e s) = ArrivePoint.id ap).
Proof.
  destruct e; unfold handle;
    try (destruct (handle_timer_keeps i s) as (_ & _ & _ & -> & _); auto);
    destruct (screen s); auto;
    unfold clickLocation, clickArrivePoint, clickMerchant,
      clickOpenArrivePoint, location;
    repeat break_goal; simpl; auto.
  right; right. split; [reflexivity|].
  match goal with
  | H : nth_error (Location.arrivePoints ?l) _ = Some ?ap |- _ =>
      exists l, ap; apply nth_error_In in H; auto
  end.
Qed.

(** C7.  In every reachable session a non-empty [arrivePointId] names an
    arrive point of the location that [locationId] resolves to; and an
    interaction that changes [locationId] leaves [arrivePointId] empty,
    while one that changes [arrivePointId] empties it or takes the new id
    from the arrive points of the current location. *)
Theorem arrive_point_belongs_to_location (loc : option string) (s : Session) :
  reachable loc s ->
  (arrivePointId s <> "" ->
   exists l ap,
     location s = Some l /\ In l LOCATIONS /\ Location.id l = locationId s
     /\ In ap (Location.arrivePoints l)
     /\ ArrivePoint.id ap = arrivePointId s
     /\ arrivePoint s = Some ap)
  /\ (forall e, locationId (step e s) <> locationId s ->
        arrivePointId (step e s) = "")
  /\ (forall e,
        arrivePointId (step e s) = arrivePointId s
        \/ arrivePointId (step e s) = ""
        \/ (locationId (step e s) = locationId s
            /\ exists l ap, location s = Some l
                 /\ In ap (Location.arrivePoints l)
                 /\ arrivePointId (step e s) = ArrivePoint.id ap)).
Proof.
  intros Hr. split; [|split].
  - intros Hne.
    destruct (destinationInv_reachable loc s Hr Hne) as (l & ap & Hl & Ha & Hin & Hid).
    exists l, ap. repeat split; trivial.
    + unfold location, findLocation in Hl. apply find_some in Hl. tauto.
    + unfold location, findLocation in Hl. apply find_some in Hl.
      destruct Hl as [_ Hl]. apply String.eqb_eq in Hl. exact Hl.
  - intros e. unfold step.
    destruct (effects_keeps (handle e s)) as (_ & -> & -> & _).
    apply handle_location_change.
  - intros e. unfold step.
    destruct (effects_keeps (handle e s)) as (_ & -> & -> & _).
    apply handle_arrive_point_change.
Qed.

Lemma arrive_point_witness :
  let s := run toDestination (boot None) in
  reachable None s /\ arrivePointId s = "AP-201"
  /\ exists l ap,
       location s = Some l /\ In l LOCATIONS /\ Location.id l = locationId s
       /\ In ap (Location.arrivePoints l)
       /\ ArrivePoint.id ap = arrivePointId s
       /\ arrivePoint s = Some ap.
Proof.
  intros s.
  assert (Hr : reachable None s) by apply reachable_run.
  split; [exact Hr|]. split; [reflexivity|].
  apply (proj1 (arrive_point_belongs_to_location None s Hr)).
  vm_compute. discriminate.
Defined.

(** ** Checkout *)

Lemma detail_state_is_complete loc s :
  reachable loc s -> screen s = SCREENS.MERCHANT_DETAIL ->
  isSome (user s) = true /\ incomplete s = false.
Proof.
  intros Hr Hs. destruct (navInv_reachable loc s Hr) as [Hu Hp].
  rewrite Hs in *. split; [|apply Hp; reflexivity].
  destruct (user s); [reflexivity|].
  destruct (Hu eq_refl); discriminate.
Qed.

(** Checkout pressed on the merchant page that is currently shown. *)
Lemma checkout_on_current_page (s : Session) (m : Merchant.t) (rnd : Z) :
  screen s = SCREENS.MERCHANT_DETAIL -> selectedMerchant s = Some m ->
  order (handle (DetailCheckout rnd) s)
    = Some {| Order.id := Some (orderId (rnd + 10000));
              Order.status := "PLACED";
              Order.merchantName := Some (Merchant.name m);
              Order.eta := Some (Merchant.etaMins m) |}
  /\ screen (handle (DetailCheckout rnd) s) = SCREENS.TRACKING
  /\ (0 <= rnd < 90000 ->
      exists n, 10000 <= n <= 99999
                /\ option_map Order.id (order (handle (DetailCheckout rnd) s))
                   = Some (Some (orderId n)))
  /\ (forall loc, reachable loc s ->
        order (step (DetailCheckout rnd) s)
          = order (handle (DetailCheckout rnd) s)
        /\ screen (step (DetailCheckout rnd) s) = SCREENS.TRACKING
        /\ timers (step (DetailCheckout rnd) s)
           = [ {| next := "ACCEPTED"; ms := 1500 |} ]).
Proof.
  intros Hs Hm.
  assert (Eh : handle (DetailCheckout rnd) s = onCheckout m rnd s).
  { unfold handle. rewrite Hs, Hm. reflexivity. }
  rewrite Eh. split; [reflexivity|]. split; [reflexivity|]. split.
  - intros Hr. exists (rnd + 10000). split; [lia | reflexivity].
  - intros loc Hr. unfold step. rewrite Eh.
    destruct (effects_keeps (onCheckout m rnd s)) as (_ & _ & _ & _ & Eo).
    split; [exact Eo|]. split.
    + destruct (detail_state_is_complete loc s Hr Hs) as [Hu Hi].
      rewrite effects_screen, guard_screen.
      change (user (onCheckout m rnd s)) with (user s).
      change (incomplete (onCheckout m rnd s)) with (incomplete s).
      rewrite Hu, Hi. reflexivity.
    + pose proof (orderInv_step (DetailCheckout rnd) s
                    (orderInv_reachable loc s Hr)) as (_ & Ht & _).
      unfold step in Ht. rewrite Eh in Ht. rewrite Ht, Eo. reflexivity.
Qed.




(** ** Deep link *)

Lemma boot_fields loc :
  screen (boot loc) = SCREENS.LANDING /\ user (boot loc) = None
  /\ arrivePointId (boot loc) = "" /\ order (boot loc) = None
  /\ locationId (boot loc) = match loc with Some v => v | None => "" end.
Proof.
  unfold boot, deepLink.
  destruct loc as [v|]; [destruct (truthy v) eqn:E|]; cbn; repeat split.
  symmetry. apply truthy_false, E.
Qed.

(** C10.  The deep-link parameter is not validated.  Whatever its value,
    the booted session has it verbatim as [locationId], has no arrive point
    and shows LANDING.  When the value is no id of [LOCATIONS], the location
    resolves to nothing at boot, and in every reachable session: while
    [locationId] is that value the location resolves to nothing; while the
    location resolves to nothing the arrive point is empty, the screen is
    none of the four behind the destination step, and the guard sends a
    signed-in session from any such screen to DESTINATION; and a session
    that is behind the destination step has a resolved location and arrive
    point, so its [locationId] is no longer the unknown value. *)
Theorem unknown_deep_link_cannot_skip_destination
        (v : string) (s : Session) :
  (locationId (boot (Some v)) = v /\ arrivePointId (boot (Some v)) = ""
   /\ screen (boot (Some v)) = SCREENS.LANDING
   /\ locationId (boot None) = "")
  /\ (findLocation v = None ->
      location (boot (Some v)) = None
      /\ (reachable (Some v) s ->
          (locationId s = v -> location s = None)
          /\ (location s = None ->
           arrivePointId s = "" /\ incomplete s = true
           /\ beforeMerchants (screen s)
           /\ forall sc, user s <> None -> pastDestination sc = true ->
                screen (guard (setScreen sc s)) = SCREENS.DESTINATION)
          /\ (pastDestination (screen s) = true ->
              locationId s <> v
              /\ exists l ap, location s = Some l /\ arrivePoint s = Some ap))).
Proof.
  destruct (boot_fields (Some v)) as (Bs & _ & Ba & _ & Bl).
  split; [|intros Hv; split; [|intros Hr; split; [|split]]].
  - repeat split; trivial.
  - unfold location. rewrite Bl. exact Hv.
  - intros E. unfold location. rewrite E. exact Hv.
  - intros Hl.
    assert (Ha : arrivePointId s = "").
    { destruct (String.eqb_spec (arrivePointId s) "") as [E|E]; [exact E|].
      destruct (destinationInv_reachable _ s Hr E) as (l & _ & Hl' & _).
      congruence. }
    assert (Hi : incomplete s = true) by (apply incomplete_true; auto).
    split; [exact Ha|]. split; [exact Hi|]. split.
    + destruct (navInv_reachable _ s Hr) as [_ Hp].
      unfold beforeMerchants.
      destruct (screen s); repeat split; try discriminate;
        intros _; specialize (Hp eq_refl); congruence.
    + intros sc Hu Hsc. rewrite guard_screen.
      change (user (setScreen sc s)) with (user s).
      change (incomplete (setScreen sc s)) with (incomplete s).
      rewrite Hi. destruct (user s); [|congruence].
      destruct sc; try discriminate Hsc; reflexivity.
  - intros Hp.
    destruct (navInv_reachable _ s Hr) as [_ Hn].
    specialize (Hn Hp).
    assert (Ha : arrivePointId s <> "").
    { intros E. assert (incomplete s = true) by (apply incomplete_true; auto).
      congruence. }
    destruct (destinationInv_reachable _ s Hr Ha) as (l & ap & Hl & Hap & _).
    split; [|eauto].
    intros E. unfold location in Hl. congruence.
Qed.

Lemma unknown_deep_link_witness :
  let v := "vp-unknown" in
  let s := run [LandingContinue; AuthVerified demoUser; PickArrivePoint 0;
                DestinationContinue] (boot (Some v)) in
  findLocation v = None /\ reachable (Some v) s
  /\ locationId s = v /\ screen s = SCREENS.DESTINATION
  /\ arrivePointId s = "".
Proof.
  intros v s.
  assert (Hv : findLocation v = None) by reflexivity.
  assert (Hr : reachable (Some v) s) by apply reachable_run.
  split; [exact Hv|]. split; [exact Hr|].
  split; [reflexivity|]. split; [reflexivity|].
  destruct (proj2 (unknown_deep_link_cannot_skip_destination v s) Hv)
    as [_ H].
  apply (proj1 (proj2 (H Hr))). reflexivity.
Defined.

(** ** Scenarios *)

Example scenario_start : screen (boot None) = SCREENS.LANDING.
Proof. reflexivity. Qed.

Example scenario_authenticated :
  screen (run [LandingContinue; AuthVerified demoUser] (boot None))
  = SCREENS.DESTINATION.
Proof. reflexivity. Qed.

Example scenario_tracking :
  let s := run toTracking (boot None) in
  screen s = SCREENS.TRACKING
  /\ locationId s = "vp-building-a" /\ arrivePointId s = "AP-201"
  /\ order s = Some firstOrder
  /\ timers s = [ {| next := "ACCEPTED"; ms := 1500 |} ].
Proof. vm_compute. repeat split. Qed.

Example scenario_unlock :
  let s := run (toDelivered ++ [TrackingOpenArrivePoint]) (boot None) in
  screen s = SCREENS.UNLOCK
  /\ option_map Order.status (order s) = Some "DELIVERED"
  /\ timers s = [].
Proof. vm_compute. repeat split. Qed.

Example scenario_unlock_too_early :
  let s := run (toTracking ++ repeat (TimerFire 0) 5
                ++ [TrackingOpenArrivePoint]) (boot None) in
  screen s = SCREENS.TRACKING
  /\ option_map Order.status (order s) = Some "IN_FLIGHT".
Proof. vm_compute. repeat split. Qed.

Example filtered_noodle :
  map Merchant.id (filtered "  NOODLE ") = ["merchant-2"].
Proof. reflexivity. Qed.

(** * Further properties of the code *)

(** ** Phone formatting *)

Lemma allDigits_strip s : allDigits (stripNonDigits s) = true.
Proof.
  induction s as [|c s IH]; simpl; [reflexivity|].
  destruct (isDigit c) eqn:E; simpl; [rewrite E|]; exact IH.
Qed.

Lemma strip_allDigits s : allDigits s = true -> stripNonDigits s = s.
Proof.
  induction s as [|c s IH]; simpl; [reflexivity|].
  intros H. apply andb_true_iff in H as [Hc Hs].
  rewrite Hc, (IH Hs). reflexivity.
Qed.

Lemma allDigits_prefix n : forall s,
  allDigits s = true -> allDigits (substring 0 n s) = true.
Proof.
  induction n as [|n IH]; intros [|c s]; simpl; trivial.
  intros H. apply andb_true_iff in H as [Hc Hs].
  rewrite Hc. apply IH, Hs.
Qed.

Lemma length_prefix n : forall s,
  (String.length (substring 0 n s) <= n)%nat.
Proof.
  induction n as [|n IH]; intros [|c s]; simpl; try lia.
  specialize (IH s). lia.
Qed.

Lemma prefix_short n : forall s,
  (String.length s <= n)%nat -> substring 0 n s = s.
Proof.
  induction n as [|n IH]; intros [|c s]; simpl; trivial; intros H; try lia.
  rewrite IH; [reflexivity | lia].
Qed.

Lemma formatPhone_layout raw :
  formatPhone raw
  = layout (slice 0 10
              (stripNonDigits (match raw with Some r => r | None => "" end))).
Proof. reflexivity. Qed.

(** On at most ten digits the layout adds only "(", ")", " " and "-": the
    digits can be read back, and the length grows by 0, 3 or 4. *)
Lemma layout_digits d :
  allDigits d = true -> (String.length d <= 10)%nat ->
  stripNonDigits (layout d) = d
  /\ String.length (layout d)
     = (if (String.length d <=? 3)%nat then String.length d
        else if (String.length d <=? 6)%nat then String.length d + 3
        else String.length d + 4)%nat.
Proof.
  intros Hd Hl.
  destruct d as [|c1 [|c2 [|c3 [|c4 [|c5 [|c6 [|c7 [|c8 [|c9 [|c10 [|c11 d]]]]]]]]]]];
    try (simpl in Hl; lia);
    cbn -[isDigit] in Hd;
    repeat (apply andb_true_iff in Hd; destruct Hd as [? Hd]);
    (split; [|reflexivity]);
    cbn -[isDigit];
    repeat match goal with
           | H : isDigit _ = true |- _ => rewrite H; clear H
           end;
    reflexivity.
Qed.

Lemma formatPhone_keeps_digits_aux raw :
  stripNonDigits (formatPhone raw)
  = slice 0 10 (stripNonDigits (match raw with Some r => r | None => "" end))
  /\ (String.length
        (slice 0 10
           (stripNonDigits (match raw with Some r => r | None => "" end)))
      <= 10)%nat.
Proof.
  rewrite formatPhone_layout.
  set (digits := slice 0 10 _).
  assert (Hd : allDigits digits = true)
    by apply allDigits_prefix, allDigits_strip.
  assert (Hl : (String.length digits <= 10)%nat) by apply length_prefix.
  split; [apply (layout_digits digits Hd Hl) | exact Hl].
Qed.

(** X1.  Formatting keeps exactly the first ten digits of its input, in
    order, and nothing else that is a digit; the result is that many
    characters plus 0, 3 or 4 of punctuation, so never more than 14. *)
Theorem formatPhone_keeps_first_ten_digits (raw : option string) :
  let digits :=
    slice 0 10 (stripNonDigits (match raw with Some r => r | None => "" end)) in
  stripNonDigits (formatPhone raw) = digits
  /\ String.length (formatPhone raw)
     = (if (String.length digits <=? 3)%nat then String.length digits
        else if (String.length digits <=? 6)%nat then String.length digits + 3
        else String.length digits + 4)%nat
  /\ (String.length (formatPhone raw) <= 14)%nat.
Proof.
  intros digits. rewrite formatPhone_layout. fold digits.
  assert (Hd : allDigits digits = true)
    by apply allDigits_prefix, allDigits_strip.
  assert (Hl : (String.length digits <= 10)%nat) by apply length_prefix.
  destruct (layout_digits digits Hd Hl) as [H1 H2].
  split; [exact H1|]. split; [exact H2|]. rewrite H2.
  destruct (String.length digits <=? 3)%nat eqn:E3;
    [apply Nat.leb_le in E3; lia|].
  destruct (String.length digits <=? 6)%nat eqn:E6;
    [apply Nat.leb_le in E6; lia | lia].
Qed.

(** X2.  Formatting an already formatted number changes nothing, which is
    what lets the phone input show [formatPhone(phone)] and feed its own
    text back through [setPhone]. *)
Theorem formatPhone_idempotent (raw : option string) :
  formatPhone (Some (formatPhone raw)) = formatPhone raw.
Proof.
  rewrite (formatPhone_layout (Some _)).
  destruct (formatPhone_keeps_digits_aux raw) as [-> Hl].
  unfold slice at 1. simpl Nat.sub. rewrite (prefix_short 10 _ Hl).
  symmetry. apply formatPhone_layout.
Qed.

(** ** The [Auth] view *)

Lemma nth_error_single {A} (c : A) i x :
  nth_error [c] i = Some x -> i = O /\ x = c.
Proof.
  destruct i as [|[|i]]; simpl; intros H; try discriminate H.
  injection H as <-. auto.
Qed.

Lemma auth_flight_handle e st :
  (Auth.loading st = true <-> Auth.waiting st <> []) ->
  (List.length (Auth.waiting st) <= 1)%nat ->
  (Auth.loading (fst (Auth.handle e st)) = true
   <-> Auth.waiting (fst (Auth.handle e st)) <> [])
  /\ (List.length (Auth.waiting (fst (Auth.handle e st))) <= 1)%nat.
Proof.
  destruct st as [sp ph ot ld w]; simpl. intros Hiff Hlen.
  assert (Hw : (w = [] /\ ld = false) \/ (exists c, w = [c] /\ ld = true)).
  { destruct w as [|c [|c' w]]; [| |simpl in Hlen; lia]; destruct ld; eauto.
    - exfalso. destruct Hiff as [H _]. apply (H eq_refl). reflexivity.
    - destruct Hiff as [_ H]. discriminate H. discriminate. }
  clear Hiff Hlen.
  destruct Hw as [[-> ->] | (c & -> & ->)].
  - destruct e, sp; unfold Auth.handle; simpl;
      try (destruct i; simpl);
      repeat match goal with
             | |- context [if ?b then _ else _] => destruct b; simpl
             end;
      flight_done.
  - destruct e, sp; unfold Auth.handle; simpl;
      try (destruct (nth_error [c] i) as [k|] eqn:E;
           [apply nth_error_single in E as [-> ->]; destruct c |]; simpl);
      try rewrite andb_false_r; simpl;
      flight_done.
Qed.

Lemma auth_flight es : forall st,
  (Auth.loading st = true <-> Auth.waiting st <> []) ->
  (List.length (Auth.waiting st) <= 1)%nat ->
  (Auth.loading (fst (Auth.run es st)) = true
   <-> Auth.waiting (fst (Auth.run es st)) <> [])
  /\ (List.length (Auth.waiting (fst (Auth.run es st))) <= 1)%nat.
Proof.
  induction es as [|e es IH]; intros st H1 H2; [simpl; auto|].
  simpl. destruct (auth_flight_handle e st H1 H2) as [H3 H4].
  destruct (Auth.handle e st) as [st1 out]; simpl in *.
  specialize (IH st1 H3 H4).
  destruct (Auth.run es st1) as [st2 outs]; simpl in *. exact IH.
Qed.

Lemma auth_waiting_shape st :
  (Auth.loading st = true <-> Auth.waiting st <> []) ->
  (List.length (Auth.waiting st) <= 1)%nat ->
  (Auth.waiting st = [] /\ Auth.loading st = false)
  \/ (exists c, Auth.waiting st = [c] /\ Auth.loading st = true).
Proof.
  intros Hiff Hlen.
  destruct (Auth.waiting st) as [|c [|c' w]]; [| |simpl in Hlen; lia];
    destruct (Auth.loading st); eauto.
  - exfalso. destruct Hiff as [H _]. apply (H eq_refl). reflexivity.
  - destruct Hiff as [_ H]. discriminate H. discriminate.
Qed.

Lemma otpField_set v : otpField (slice 0 6 (stripNonDigits v)).
Proof.
  split; [apply allDigits_prefix, allDigits_strip | apply length_prefix].
Qed.

Lemma auth_otp_handle e st :
  otpField (Auth.otp st) -> otpField (Auth.otp (fst (Auth.handle e st))).
Proof.
  intros H. destruct e; unfold Auth.handle;
    try (destruct (nth_error _ _) as [[|p]|]; exact H);
    destruct (Auth.step st); try exact H;
    try (destruct (_ && _); exact H).
  apply otpField_set.
Qed.

Lemma auth_otp_run es : forall st,
  otpField (Auth.otp st) -> otpField (Auth.otp (fst (Auth.run es st))).
Proof.
  induction es as [|e es IH]; intros st H; [exact H|].
  simpl. pose proof (auth_otp_handle e st H) as H1.
  destruct (Auth.handle e st) as [st1 out]; simpl in *.
  specialize (IH st1 H1).
  destruct (Auth.run es st1) as [st2 outs]; exact IH.
Qed.

(** X3.  [Auth] never has two requests in flight: after any sequence of
    edits, clicks and timeouts at most one continuation of [send] or
    [verify] is waiting, and [loading] is set exactly while one is. *)
Theorem auth_single_flight (es : list Auth.Event) :
  (List.length (Auth.waiting (fst (Auth.run es Auth.initial))) <= 1)%nat
  /\ (Auth.loading (fst (Auth.run es Auth.initial)) = true
      <-> Auth.waiting (fst (Auth.run es Auth.initial)) <> []).
Proof.
  destruct (auth_flight es Auth.initial) as [H1 H2]; [|simpl; lia|auto].
  simpl. split; [discriminate | intros H; exfalso; apply H; reflexivity].
Qed.

(** X4.  The code field of [Auth] only ever holds digits, six at most, so
    the Verify button is enabled exactly when it holds six characters (and
    no request is in flight). *)
Theorem auth_otp_is_six_digits_at_most (es : list Auth.Event) :
  let st := fst (Auth.run es Auth.initial) in
  allDigits (Auth.otp st) = true
  /\ (String.length (Auth.otp st) <= 6)%nat
  /\ (Auth.canVerify st = true <-> String.length (Auth.otp st) = 6%nat).
Proof.
  intros st.
  destruct (auth_otp_run es Auth.initial) as [H1 H2];
    [split; [reflexivity | simpl; lia]|].
  fold st in H1, H2. split; [exact H1|]. split; [exact H2|].
  unfold Auth.canVerify. rewrite (strip_allDigits _ H1). apply Nat.eqb_eq.
Qed.

Lemma auth_phone_handle e st :
  (Auth.loading st = true <-> Auth.waiting st <> []) ->
  (List.length (Auth.waiting st) <= 1)%nat ->
  authPhoneInv st ->
  match e with Auth.ChangePhone _ => Auth.loading st = false | _ => True end ->
  authPhoneInv (fst (Auth.handle e st))
  /\ forall u, snd (Auth.handle e st) = Some u ->
       String.length (phone u) = 10%nat /\ allDigits (phone u) = true.
Proof.
  intros Hiff Hlen [Hotp Hw] Hidle.
  destruct (auth_waiting_shape st Hiff Hlen) as [[Ew El] | (c & Ew & El)];
    destruct st as [sp ph ot ld w]; simpl in *; subst.
  - destruct e, sp; unfold Auth.handle, authPhoneInv; simpl;
      try (destruct i; simpl);
      repeat match goal with
             | |- context [if ?b then _ else _] => destruct b eqn:?; simpl
             end;
      (split; [split; [try discriminate; auto | auto] | discriminate]).
    constructor; [|constructor].
    unfold Auth.canSend in *; simpl in *.
    rewrite andb_true_r in *. apply Nat.eqb_eq. assumption.
  - destruct e, sp; try discriminate Hidle;
      unfold Auth.handle, authPhoneInv; simpl;
      try (destruct (nth_error [c] i) as [k|] eqn:E;
           [apply nth_error_single in E as [-> ->]; destruct c |]; simpl);
      try rewrite andb_false_r; simpl;
      inversion Hw as [|? ? Hc _]; subst;
      (split; [split; [try discriminate; auto | auto] | try discriminate]).
    all: intros u [= <-]; simpl;
      split; [assumption | apply allDigits_strip].
Qed.

Lemma auth_phone_run es : forall st,
  (Auth.loading st = true <-> Auth.waiting st <> []) ->
  (List.length (Auth.waiting st) <= 1)%nat ->
  authPhoneInv st ->
  Auth.editsWhenIdle es st = true ->
  Forall (fun u => String.length (phone u) = 10%nat
                   /\ allDigits (phone u) = true)
         (snd (Auth.run es st)).
Proof.
  induction es as [|e es IH]; intros st Hiff Hlen Hinv Hidle;
    [constructor|].
  simpl in Hidle. apply andb_true_iff in Hidle as [He Hr].
  assert (Hc : match e with
               | Auth.ChangePhone _ => Auth.loading st = false
               | _ => True
               end).
  { destruct e; trivial. apply negb_true_iff, He. }
  destruct (auth_phone_handle e st Hiff Hlen Hinv Hc) as [Hinv1 Hout].
  destruct (auth_flight_handle e st Hiff Hlen) as [Hiff1 Hlen1].
  simpl. destruct (Auth.handle e st) as [st1 out]; simpl in *.
  specialize (IH st1 Hiff1 Hlen1 Hinv1 Hr).
  destruct (Auth.run es st1) as [st2 outs]; simpl in *.
  destruct out as [u|]; [constructor; auto | exact IH].
Qed.

(** X5.  When the phone field is not edited while a request is in flight,
    every user [Auth] hands to [onAuthed] carries exactly ten digits and
    nothing else. *)
Theorem auth_hands_over_ten_digits (es : list Auth.Event) :
  Auth.editsWhenIdle es Auth.initial = true ->
  Forall (fun u => String.length (phone u) = 10%nat
                   /\ allDigits (phone u) = true)
         (snd (Auth.run es Auth.initial)).
Proof.
  apply auth_phone_run.
  - simpl. split; [discriminate | intros H; exfalso; apply H; reflexivity].
  - simpl. lia.
  - split; [discriminate | constructor].
Qed.

Lemma auth_hands_over_witness :
  Auth.editsWhenIdle signIn Auth.initial = true
  /\ snd (Auth.run signIn Auth.initial) = [ {| phone := "3175550123" |} ]
  /\ Forall (fun u => String.length (phone u) = 10%nat
                      /\ allDigits (phone u) = true)
            (snd (Auth.run signIn Auth.initial)).
Proof.
  split; [reflexivity|]. split; [reflexivity|].
  apply (auth_hands_over_ten_digits signIn). reflexivity.
Defined.

(** Without that proviso the number can be shorter: an edit made while
    [send] waits is what [verify] later captures. *)
Example auth_edit_during_send :
  Auth.editsWhenIdle signInEdited Auth.initial = false
  /\ snd (Auth.run signInEdited Auth.initial) = [ {| phone := "317" |} ].
Proof. split; reflexivity. Qed.

(** ** The [Unlock] view *)

Lemma unlock_handle_inv e st :
  ((Unlock.waiting st <= 1)%nat
   /\ (Unlock.unlocking st = true <-> Unlock.waiting st = 1%nat)
   /\ (Unlock.unlocked st = true -> Unlock.waiting st = O)
   /\ otpField (Unlock.otp st)) ->
  (Unlock.waiting (Unlock.handle e st) <= 1)%nat
  /\ (Unlock.unlocking (Unlock.handle e st) = true
      <-> Unlock.waiting (Unlock.handle e st) = 1%nat)
  /\ (Unlock.unlocked (Unlock.handle e st) = true ->
      Unlock.waiting (Unlock.handle e st) = O)
  /\ otpField (Unlock.otp (Unlock.handle e st)).
Proof.
  destruct st as [md ug ud ot w]; simpl. intros (Hw & Hiff & Hud & Hot).
  destruct e; unfold Unlock.handle; simpl.
  - auto.
  - destruct md; simpl; auto using otpField_set.
  - destruct ud, ug; simpl; auto.
    assert (w = O) as ->.
    { destruct w as [|[|w]]; [reflexivity | | lia].
      destruct Hiff as [_ H]. discriminate (H eq_refl). }
    destruct Hot. repeat split; intros; auto; try discriminate; try lia.
  - destruct w as [|[|w]]; simpl; [auto | | lia].
    destruct Hot. repeat split; intros; auto; try discriminate; try lia.
Qed.

Lemma unlock_stays_unlocked es : forall st,
  Unlock.unlocked st = true -> Unlock.unlocked (Unlock.run es st) = true.
Proof.
  induction es as [|e es IH]; intros st H; [exact H|].
  apply IH. destruct st as [md ug ud ot w]; simpl in *; subst.
  destruct e; unfold Unlock.handle; simpl; trivial.
  - destruct md; reflexivity.
  - destruct w; reflexivity.
Qed.

(** X6.  The [Unlock] view: at most one unlock request is in flight and
    [unlocking] is set exactly while it is; the code field holds at most six
    digits; once unlocked it stays unlocked; and pressing Unlock and waiting
    for the timeout unlocks whatever tab is shown and whatever code was
    typed, the code is never looked at. *)
Theorem unlock_view_ignores_code :
  (forall es,
     let st := Unlock.run es Unlock.initial in
     (Unlock.waiting st <= 1)%nat
     /\ (Unlock.unlocking st = true <-> Unlock.waiting st = 1%nat)
     /\ (Unlock.unlocked st = true -> Unlock.waiting st = O)
     /\ otpField (Unlock.otp st))
  /\ (forall es st, Unlock.unlocked st = true ->
        Unlock.unlocked (Unlock.run es st) = true)
  /\ (forall st, Unlock.unlocked st = false -> Unlock.unlocking st = false ->
        Unlock.unlocked
          (Unlock.run [Unlock.ClickUnlock; Unlock.TimeoutElapsed] st) = true).
Proof.
  split; [|split].
  - intros es. cbv zeta. unfold Unlock.run.
    induction es as [|e es IH] using rev_ind.
    + unfold otpField. simpl.
      repeat split; intros; auto; try discriminate; try lia.
    + rewrite fold_left_app. simpl. apply unlock_handle_inv, IH.
  - intros es st. apply unlock_stays_unlocked.
  - intros [md ug ud ot w]; simpl. intros -> ->. reflexivity.
Qed.

Lemma unlock_view_witness :
  let st := Unlock.run [Unlock.ClickTab Unlock.OTP; Unlock.ChangeOtp "12"]
                       Unlock.initial in
  Unlock.otp st = "12" /\ Unlock.unlocked st = false
  /\ Unlock.unlocked
       (Unlock.run [Unlock.ClickUnlock; Unlock.TimeoutElapsed] st) = true.
Proof.
  split; [reflexivity|]. split; [reflexivity|].
  apply (proj2 (proj2 unlock_view_ignores_code)); reflexivity.
Defined.

(** ** Navigation *)

(** X9.  One pass of the effects settles any state: running the guard, the
    order effect or both again changes nothing, so the renders triggered by
    the effects stop after one round. *)
Theorem effects_settle_in_one_pass (s : Session) :
  effects (effects s) = effects s
  /\ guard (effects s) = effects s
  /\ orderEffect (effects s) = effects s.
Proof.
  split; [apply effects_idem|]. unfold effects. split.
  - apply guard_idem.
  - rewrite orderEffect_guard, orderEffect_idem. reflexivity.
Qed.

(** X12.  No reachable session shows an empty page: on MERCHANT_DETAIL the
    selected merchant resolves, and on TRACKING and UNLOCK there is an
    order, which are the conditions [App] renders those views under. *)
Theorem view_always_mounted (loc : option string) (s : Session) :
  reachable loc s -> viewMounted s = true.
Proof.
  intros Hr. unfold viewMounted.
  destruct (screen s) eqn:Esc; trivial.
  - destruct (merchantInv_reachable loc s Hr) as [Hm Hd].
    unfold selectedMerchant.
    destruct (selectedMerchantId s) as [mid|];
      [|exfalso; apply (Hd Esc); reflexivity].
    destruct (Hm mid eq_refl) as (m & -> & _). reflexivity.
  - destruct (orderInv_reachable loc s Hr) as (_ & _ & _ & Ho).
    destruct (order s); [reflexivity|]. exfalso. apply Ho; auto.
  - destruct (orderInv_reachable loc s Hr) as (_ & _ & _ & Ho).
    destruct (order s); [reflexivity|]. exfalso. apply Ho; auto.
Qed.

Lemma view_always_mounted_witness :
  let s := run toTracking (boot None) in
  reachable None s /\ screen s = SCREENS.TRACKING /\ viewMounted s = true.
Proof.
  intros s. assert (Hr : reachable None s) by apply reachable_run.
  split; [exact Hr|]. split; [reflexivity|].
  apply (view_always_mounted None s Hr).
Defined.

(** ** Delivery context *)

Lemma truthy_true x : truthy x = true <-> x <> "".
Proof.
  unfold truthy. destruct (String.eqb_spec x ""); simpl; split; congruence.
Qed.

Lemma known_ids_not_empty l ap :
  In l LOCATIONS -> In ap (Location.arrivePoints l) ->
  Location.id l <> "" /\ ArrivePoint.id ap <> "".
Proof.
  simpl. intros [<- | [<- | [<- | []]]]; simpl;
    intros H; repeat (destruct H as [<- | H]); try contradiction;
    split; discriminate.
Qed.

(** X13.  In a reachable session the delivery context exists exactly when
    an arrive point is chosen, which is exactly when "Continue to merchants"
    is enabled; it then names the chosen arrive point and the location that
    [locationId] resolves to.  Past DESTINATION it always exists, and the
    order note of the merchant page ends in the chosen arrive point. *)
Theorem delivery_context_when_arrive_point_chosen
        (loc : option string) (s : Session) :
  reachable loc s ->
  (deliveryContext s <> None <-> arrivePointId s <> "")
  /\ (canContinue s = true <-> arrivePointId s <> "")
  /\ (forall dc, deliveryContext s = Some dc ->
        dcArrivePointId dc = arrivePointId s
        /\ exists l, location s = Some l /\ locationName dc = Location.name l
                     /\ Location.id l = locationId s)
  /\ (pastDestination (screen s) = true ->
      deliveryContext s <> None
      /\ note (deliveryContext s)
         = "Visionary Park drone delivery to " ++ arrivePointId s).
Proof.
  intros Hr.
  assert (Res : arrivePointId s <> "" ->
                exists l ap, location s = Some l /\ arrivePoint s = Some ap
                             /\ In l LOCATIONS
                             /\ In ap (Location.arrivePoints l)
                             /\ Location.id l = locationId s
                             /\ ArrivePoint.id ap = arrivePointId s).
  { intros Hne.
    destruct (destinationInv_reachable loc s Hr Hne)
      as (l & ap & Hl & Ha & Hin & Hid).
    exists l, ap. pose proof Hl as Hf.
    unfold location, findLocation in Hf. apply find_some in Hf as [Hf1 Hf2].
    apply String.eqb_eq in Hf2. auto 8. }
  assert (Dc : forall dc, deliveryContext s = Some dc ->
                 dcArrivePointId dc = arrivePointId s
                 /\ arrivePointId s <> ""
                 /\ exists l, location s = Some l
                      /\ locationName dc = Location.name l
                      /\ Location.id l = locationId s).
  { intros dc. unfold deliveryContext.
    destruct (location s) as [l|] eqn:El; [|discriminate].
    destruct (arrivePoint s) as [ap|] eqn:Ea; [|discriminate].
    intros [= <-]. simpl.
    pose proof El as Hf. unfold location, findLocation in Hf.
    apply find_some in Hf as [Hf1 Hf2]. apply String.eqb_eq in Hf2.
    unfold arrivePoint in Ea. rewrite El in Ea.
    apply find_some in Ea as [Ha1 Ha2]. apply String.eqb_eq in Ha2.
    split; [exact Ha2|]. split; [|eauto].
    rewrite <- Ha2. apply (known_ids_not_empty l ap Hf1 Ha1). }
  assert (Some_dc : arrivePointId s <> "" -> deliveryContext s <> None).
  { intros Hne. destruct (Res Hne) as (l & ap & Hl & Ha & _).
    unfold deliveryContext. rewrite Hl, Ha. discriminate. }
  split; [|split; [|split]].
  - split; [|exact Some_dc].
    destruct (deliveryContext s) as [dc|] eqn:E; [|congruence].
    intros _. apply (Dc dc eq_refl).
  - unfold canContinue. rewrite andb_true_iff, !truthy_true. split; [tauto|].
    intros Hne. split; [|exact Hne].
    destruct (Res Hne) as (l & ap & _ & _ & Hl & Hap & <- & _).
    apply (known_ids_not_empty l ap Hl Hap).
  - intros dc Hdc. destruct (Dc dc Hdc) as (H1 & _ & H2). auto.
  - intros Hp.
    assert (Hne : arrivePointId s <> "").
    { destruct (navInv_reachable loc s Hr) as [_ Hn].
      specialize (Hn Hp). intros E.
      assert (incomplete s = true) by (apply incomplete_true; auto).
      congruence. }
    split; [exact (Some_dc Hne)|].
    destruct (deliveryContext s) as [dc|] eqn:E;
      [|exfalso; apply (Some_dc Hne); reflexivity].
    simpl. destruct (Dc dc eq_refl) as (-> & _). reflexivity.
Qed.

Lemma delivery_context_witness :
  let s := run toTracking (boot None) in
  reachable None s
  /\ note (deliveryContext s) = "Visionary Park drone delivery to AP-201".
Proof.
  intros s. assert (Hr : reachable None s) by apply reachable_run.
  split; [exact Hr|].
  destruct (delivery_context_when_arrive_point_chosen None s Hr)
    as (_ & _ & _ & H).
  destruct (H eq_refl) as [_ ->]. reflexivity.
Defined.

(** ** Order progression *)

Lemma body_in_delays o :
  In (Order.status o) steps ->
  (Order.status o = "DELIVERED" /\ orderEffectBody (Some o) = [])
  \/ (Order.status o <> "DELIVERED"
      /\ exists t, orderEffectBody (Some o) = [t]
                   /\ In (Order.status o, next t, ms t) delays).
Proof.
  destruct o as [oid st mn et]. simpl.
  intros [<- | [<- | [<- | [<- | [<- | [<- | [<- | []]]]]]]];
    [right | right | right | right | right | right | left; auto];
    (split; [discriminate|]); eexists; (split; [reflexivity|]);
    simpl; tauto.
Qed.

(** X14.  At most one progression timer is ever pending.  It exists exactly
    while there is an order that is not yet DELIVERED, and it is the row of
    the delay table for the current status: 1500 ms to ACCEPTED, 1800 to
    PREPARING, 2600 to READY, 1800 to PICKED_UP, 1800 to IN_FLIGHT and 2800
    to DELIVERED. *)
Theorem one_timer_per_status (loc : option string) (s : Session) :
  reachable loc s ->
  (List.length (timers s) <= 1)%nat
  /\ (forall t, In t (timers s) ->
        exists o, order s = Some o
                  /\ In (Order.status o, next t, ms t) delays)
  /\ (forall o, order s = Some o -> Order.status o <> "DELIVERED" ->
        exists t, timers s = [t]
                  /\ In (Order.status o, next t, ms t) delays)
  /\ (timers s = [] <->
      order s = None
      \/ exists o, order s = Some o /\ Order.status o = "DELIVERED").
Proof.
  intros Hr. destruct (orderInv_reachable loc s Hr) as (Hc & Ht & _).
  rewrite Ht. destruct (order s) as [o|].
  - destruct (Hc o eq_refl) as (Hin & _).
    destruct (body_in_delays o Hin) as [[Ed ->] | (Hne & t & -> & Hd)].
    + split; [simpl; lia|]. split; [intros t []|].
      split; [intros o' [= <-]; congruence|].
      split; [eauto | reflexivity].
    + split; [simpl; lia|]. split.
      { intros t' [<- | []]. eauto. }
      split; [intros o' [= <-] _; eauto|].
      split; [discriminate|].
      intros [E | (o' & [= <-] & E)]; [discriminate E | congruence].
  - simpl. split; [lia|]. split; [intros t []|].
    split; [discriminate|]. split; auto.
Qed.

Lemma one_timer_witness :
  let s := run toTracking (boot None) in
  reachable None s
  /\ exists t, timers s = [t] /\ In ("PLACED", next t, ms t) delays.
Proof.
  intros s. assert (Hr : reachable None s) by apply reachable_run.
  split; [exact Hr|].
  destruct (one_timer_per_status None s Hr) as (_ & _ & H & _).
  apply (H firstOrder); [reflexivity | discriminate].
Defined.

Lemma idx_range o n :
  In (Order.status o) steps -> idx o = Some n ->
  (n <= 6)%nat /\ (Order.status o = "DELIVERED" <-> n = 6%nat).
Proof.
  destruct o as [oid st mn et]. unfold idx. simpl.
  intros [<- | [<- | [<- | [<- | [<- | [<- | [<- | []]]]]]]];
    cbn; intros [= <-]; (split; [lia|]); split; intros H;
    try discriminate H; reflexivity.
Qed.

Lemma fire_advances loc s o :
  reachable loc s -> order s = Some o -> Order.status o <> "DELIVERED" ->
  exists o', order (step (TimerFire O) s) = Some o' /\ oneStepAfter o o'.
Proof.
  intros Hr Ho Hne.
  destruct (orderInv_reachable loc s Hr) as (Hc & Ht & _).
  destruct (Hc o Ho) as (Hin & _).
  destruct (timer_when_not_delivered o Hin Hne) as [t Hn].
  exists (spreadStatus (Some o) (next t)). split.
  - unfold step.
    destruct (effects_keeps (handle (TimerFire O) s)) as (_ & _ & _ & _ & ->).
    unfold handle, fire. rewrite Ht, Ho, Hn. reflexivity.
  - apply oneStepAfter_fire; assumption.
Qed.

Lemma fire_idle_when_delivered loc s o i :
  reachable loc s -> order s = Some o -> Order.status o = "DELIVERED" ->
  step (TimerFire i) s = s.
Proof.
  intros Hr Ho Ed.
  destruct (orderInv_reachable loc s Hr) as (_ & Ht & _).
  apply (step_idle loc); [exact Hr|].
  unfold handle, fire.
  rewrite Ht, Ho, (no_timer_when_delivered o Ed). destruct i; reflexivity.
Qed.

(** X15.  Timer firings add up: from an order at place [n] of the seven
    statuses, [k] firings in a row leave the same order at place
    [min (n + k) 6]; six firings after a checkout deliver it and further
    ones change nothing. *)
Theorem firings_add_up (loc : option string) (k : nat) :
  forall (s : Session) (o : Order.t) (n : nat),
  reachable loc s -> order s = Some o -> idx o = Some n ->
  exists o', order (run (repeat (TimerFire O) k) s) = Some o'
             /\ sameOrder o o' /\ idx o' = Some (Nat.min (n + k) 6).
Proof.
  induction k as [|k IH]; intros s o n Hr Ho Hn.
  - destruct (orderInv_reachable loc s Hr) as (Hc & _).
    destruct (idx_range o n (proj1 (Hc o Ho)) Hn) as [Hle _].
    exists o. simpl. split; [exact Ho|]. split; [apply sameOrder_refl|].
    rewrite Hn. f_equal. lia.
  - destruct (orderInv_reachable loc s Hr) as (Hc & _).
    destruct (idx_range o n (proj1 (Hc o Ho)) Hn) as [Hle Hd].
    change (run (repeat (TimerFire O) (S k)) s)
      with (run (repeat (TimerFire O) k) (step (TimerFire O) s)).
    destruct (String.eqb_spec (Order.status o) "DELIVERED") as [Ed | Hne].
    + rewrite (fire_idle_when_delivered loc s o O Hr Ho Ed).
      destruct (IH s o n Hr Ho Hn) as (o' & H1 & H2 & H3).
      exists o'. split; [exact H1|]. split; [exact H2|].
      rewrite H3. f_equal. apply Hd in Ed. lia.
    + destruct (fire_advances loc s o Hr Ho Hne)
        as (o1 & Ho1 & Hs1 & m & Hm & Hm1).
      assert (m = n) as -> by congruence.
      destruct (IH (step (TimerFire O) s) o1 (S n)
                   (reach_step loc _ s Hr) Ho1 Hm1) as (o' & H1 & H2 & H3).
      exists o'. split; [exact H1|]. split.
      * destruct Hs1 as (? & ? & ?), H2 as (? & ? & ?).
        repeat split; congruence.
      * rewrite H3. f_equal. lia.
Qed.

Lemma firings_add_up_witness :
  let s := run toTracking (boot None) in
  reachable None s /\ order s = Some firstOrder
  /\ exists o', order (run (repeat (TimerFire O) 6) s) = Some o'
                /\ sameOrder firstOrder o' /\ idx o' = Some 6%nat.
Proof.
  intros s. assert (Hr : reachable None s) by apply reachable_run.
  split; [exact Hr|]. split; [reflexivity|].
  apply (firings_add_up None 6 s firstOrder 0 Hr); reflexivity.
Defined.

(** X16.  Every order of a reachable session was placed with an open
    merchant of [MERCHANTS]: it carries that merchant's name and ETA, an
    identifier of the form "VP-" and a number, and one of the seven
    statuses. *)
Theorem order_comes_from_open_merchant
        (loc : option string) (s : Session) :
  reachable loc s ->
  forall o, order s = Some o ->
    In (Order.status o) steps
    /\ exists m n,
         In m MERCHANTS /\ Merchant.open m = true
         /\ Order.merchantName o = Some (Merchant.name m)
         /\ Order.eta o = Some (Merchant.etaMins m)
         /\ Order.id o = Some (orderId n).
Proof.
  induction 1 as [|e s Hr IH].
  - destruct (boot_fields loc) as (_ & _ & _ & -> & _). discriminate.
  - intros o Ho.
    pose proof (orderInv_reachable loc s Hr) as Hinv.
    unfold step in Ho.
    destruct (effects_keeps (handle e s)) as (_ & _ & _ & _ & Eo).
    rewrite Eo in Ho.
    destruct (handle_order_cases e s Hinv)
      as [(E & _) | [(m & rnd & -> & Esc & Em & Eh)
                    | (o1 & t & -> & Eo1 & Ent & Eo' & _)]].
    + apply IH. congruence.
    + rewrite Eh in Ho. injection Ho as <-.
      split; [simpl; auto|].
      exists m, (rnd + 10000). simpl.
      destruct (merchantInv_reachable loc s Hr) as [Hm _].
      unfold selectedMerchant in Em.
      destruct (selectedMerchantId s) as [mid|]; [|discriminate Em].
      destruct (Hm mid eq_refl) as (m' & Hf & Hopen & _).
      assert (m' = m) as -> by congruence.
      unfold findMerchant in Hf. apply find_some in Hf as [Hin _].
      auto.
    + rewrite Eo' in Ho. injection Ho as <-.
      destruct (IH o1 Eo1) as (Hin & m & n & H1 & H2 & H3 & H4 & H5).
      split.
      * simpl. apply (pending_timer o1 O t Hin Ent).
      * exists m, n. simpl. auto.
Qed.

Lemma order_comes_from_open_merchant_witness :
  let s := run toTracking (boot None) in
  reachable None s
  /\ exists m n,
       In m MERCHANTS /\ Merchant.open m = true
       /\ Order.merchantName firstOrder = Some (Merchant.name m)
       /\ Order.eta firstOrder = Some (Merchant.etaMins m)
       /\ Order.id firstOrder = Some (orderId n).
Proof.
  intros s. assert (Hr : reachable None s) by apply reachable_run.
  split; [exact Hr|].
  apply (order_comes_from_open_merchant None s Hr firstOrder).
  reflexivity.
Defined.

(** ** Order identifiers *)

Lemma to_int_not_nil z :
  Z.to_int z <> Decimal.Pos Decimal.Nil /\ Z.to_int z <> Decimal.Neg Decimal.Nil.
Proof.
  destruct z as [|p|p]; simpl; split; try discriminate;
    intros [= E]; apply (DecimalPos.Unsigned.to_uint_nonnil p E).
Qed.

Lemma idsHaveEightChars_spec k : forall z,
  idsHaveEightChars k z = true ->
  forall j, 0 <= j < Z.of_nat k ->
  String.length (orderId (z + j + 10000)) = 8%nat.
Proof.
  induction k as [|k IH]; intros z H j Hj; [lia|].
  simpl in H. apply andb_true_iff in H as [H0 H1].
  destruct (Z.eq_dec j 0) as [-> | Hne].
  - rewrite Z.add_0_r. apply Nat.eqb_eq, H0.
  - replace (z + j) with (z + 1 + (j - 1)) by lia.
    apply (IH (z + 1) H1). lia.
Qed.

(** X17.  Order identifiers: different numbers give different identifiers,
    so two orders share an identifier only when the random draws coincide;
    and for every draw from 0 to 89999 the identifier is "VP-" followed by
    five characters. *)
Theorem order_ids_distinct_and_eight_long :
  (forall n m, orderId n = orderId m -> n = m)
  /\ (forall rnd, 0 <= rnd < 90000 ->
        String.length (orderId (rnd + 10000)) = 8%nat
        /\ substring 0 3 (orderId (rnd + 10000)) = "VP-").
Proof.
  split.
  - intros n m H. unfold orderId in H. simpl in H. injection H as H.
    apply DecimalZ.to_int_inj.
    destruct (to_int_not_nil n) as [N1 N2], (to_int_not_nil m) as [M1 M2].
    pose proof (NilZero.isi _ N1 N2) as In.
    pose proof (NilZero.isi _ M1 M2) as Im.
    rewrite H in In. congruence.
  - intros rnd Hr.
    split;
      [|unfold orderId; simpl;
        destruct (NilZero.string_of_int _); reflexivity].
    assert (H : idsHaveEightChars (Z.to_nat 90000) 0 = true)
      by (vm_compute; reflexivity).
    pose proof (idsHaveEightChars_spec _ 0 H rnd) as E.
    rewrite Z.add_0_l in E. apply E. lia.
Qed.

(** ** The tracking view *)

(** X18.  On the tracking page of a reachable session the status is always
    one of the seven steps: the dots up to and including the current step
    are on and the later ones off, the headline is the label of the current
    step, and "Open Arrive Point" is enabled exactly when all seven dots are
    on. *)
Theorem tracking_dots_follow_status
        (loc : option string) (s : Session) (o : Order.t) :
  reachable loc s -> order s = Some o ->
  exists n,
    idx o = Some n /\ (n <= 6)%nat
    /\ stepsOn o = (repeat true (S n) ++ repeat false (6 - n))%list
    /\ nth_error stepLabels n = Some (Order.status o, statusBig o)
    /\ (canUnlock o = true <-> stepsOn o = repeat true 7).
Proof.
  intros Hr Ho.
  destruct (orderInv_reachable loc s Hr) as (Hc & _).
  destruct (Hc o Ho) as (Hin & _). clear Hc Ho Hr.
  destruct o as [oid st mn et]. simpl in Hin.
  destruct Hin as [<- | [<- | [<- | [<- | [<- | [<- | [<- | []]]]]]]];
    eexists; (split; [reflexivity|]); (split; [simpl; lia|]);
    (split; [reflexivity|]); (split; [reflexivity|]);
    split; intros H; try discriminate H; reflexivity.
Qed.

Lemma tracking_dots_witness :
  let s := run toTracking (boot None) in
  reachable None s /\ order s = Some firstOrder
  /\ exists n,
       idx firstOrder = Some n /\ (n <= 6)%nat
       /\ stepsOn firstOrder
          = (repeat true (S n) ++ repeat false (6 - n))%list
       /\ nth_error stepLabels n
          = Some (Order.status firstOrder, statusBig firstOrder)
       /\ (canUnlock firstOrder = true
           <-> stepsOn firstOrder = repeat true 7).
Proof.
  intros s. assert (Hr : reachable None s) by apply reachable_run.
  assert (Ho : order s = Some firstOrder) by reflexivity.
  split; [exact Hr|]. split; [exact Ho|].
  apply (tracking_dots_follow_status None s firstOrder Hr Ho).
Defined.

(** ** Merchant search *)

Lemma isBlank_lowerChar c : isBlank (lowerChar c) = isBlank c.
Proof.
  destruct c as [[] [] [] [] [] [] [] []]; reflexivity.
Qed.

Lemma toLowerCase_empty s : toLowerCase s = "" <-> s = "".
Proof. destruct s; simpl; split; intros H; try discriminate H; reflexivity. Qed.

Lemma trimStart_toLowerCase s :
  trimStart (toLowerCase s) = toLowerCase (trimStart s).
Proof.
  induction s as [|c s IH]; simpl; [reflexivity|].
  rewrite isBlank_lowerChar. destruct (isBlank c); [exact IH | reflexivity].
Qed.

Lemma trimEnd_toLowerCase s :
  trimEnd (toLowerCase s) = toLowerCase (trimEnd s).
Proof.
  induction s as [|c s IH]; simpl; [reflexivity|].
  rewrite isBlank_lowerChar, IH.
  destruct (isBlank c); simpl; [|reflexivity].
  destruct (trimEnd s); reflexivity.
Qed.

Lemma trim_toLowerCase s : trim (toLowerCase s) = toLowerCase (trim s).
Proof.
  unfold trim. rewrite trimStart_toLowerCase. apply trimEnd_toLowerCase.
Qed.


(** ** The whole walk *)

Lemma run_app es1 es2 s : run (es1 ++ es2) s = run es2 (run es1 s).
Proof. unfold run. apply fold_left_app. Qed.

Lemma run_cons e es s : run (e :: es) s = run es (step e s).
Proof. reflexivity. Qed.

Lemma walk_to_merchants loc u i j l ap :
  nth_error LOCATIONS i = Some l ->
  nth_error (Location.arrivePoints l) j = Some ap ->
  run (toMerchants u i j) (boot loc)
  = {| screen := SCREENS.MERCHANTS; user := Some u;
       locationId := Location.id l; arrivePointId := ArrivePoint.id ap;
       selectedMerchantId := None; order := None; timers := [];
       orderDep := None |}.
Proof.
  intros Hl Hap.
  assert (B : boot loc = setLocationId (locationId (boot loc)) initial).
  { unfold boot, deepLink.
    destruct loc as [v|]; [destruct (truthy v)|]; reflexivity. }
  rewrite B. generalize (locationId (boot loc)). intros [|c v];
  destruct i as [|[|[|i]]]; simpl in Hl; try (destruct i; discriminate Hl);
    injection Hl as <-;
    destruct j as [|[|j]]; simpl in Hap;
    try (destruct j; discriminate Hap); try discriminate Hap;
    injection Hap as <-; reflexivity.
Qed.

(** X20.  The walk always goes through.  For every deep link, user,
    location button, arrive-point button of that location, search text,
    button of an open merchant and random draw, the session ends on UNLOCK
    with that user and destination and with the order of that merchant
    DELIVERED, and no timer pending. *)
Theorem walk_ends_on_unlock
        (loc : option string) (u : User) (i j k : nat) (q : string) (rnd : Z)
        (l : Location.t) (ap : ArrivePoint.t) (m : Merchant.t) :
  nth_error LOCATIONS i = Some l ->
  nth_error (Location.arrivePoints l) j = Some ap ->
  nth_error (filtered q) k = Some m -> Merchant.open m = true ->
  run (toMerchants u i j ++ fromMerchants q k rnd) (boot loc)
  = {| screen := SCREENS.UNLOCK; user := Some u;
       locationId := Location.id l; arrivePointId := ArrivePoint.id ap;
       selectedMerchantId := Some (Merchant.id m);
       order := Some {| Order.id := Some (orderId (rnd + 10000));
                        Order.status := "DELIVERED";
                        Order.merchantName := Some (Merchant.name m);
                        Order.eta := Some (Merchant.etaMins m) |};
       timers := []; orderDep := Some "DELIVERED" |}.
Proof.
  intros Hl Hap Hm Hopen.
  rewrite run_app, (walk_to_merchants loc u i j l ap Hl Hap).
  pose proof (nth_error_In _ _ Hl) as Il.
  pose proof (nth_error_In _ _ Hap) as Iap.
  pose proof (filtered_in q m (nth_error_In _ _ Hm)) as Im.
  unfold fromMerchants. rewrite run_cons.
  simpl in Il. destruct Il as [<- | [<- | [<- | []]]];
    simpl in Iap; repeat (destruct Iap as [<- | Iap]); try contradiction;
    simpl in Im; destruct Im as [<- | [<- | [<- | []]]];
    try discriminate Hopen;
    match goal with
    | Hm' : nth_error (filtered q) k = Some ?mm
      |- run _ (step _ ?s0) = _ =>
        assert (E : handle (MerchantClick q k) s0
                    = onSelect (Merchant.id mm) s0)
          by (unfold handle, clickMerchant; simpl screen; cbv iota;
              rewrite Hm'; reflexivity);
        unfold step; rewrite E
    end;
    vm_compute; reflexivity.
Qed.

Lemma walk_ends_on_unlock_witness :
  screen (run (toMerchants demoUser 1 0 ++ fromMerchants "noodle" 0 777)
              (boot (Some "vp-unknown")))
  = SCREENS.UNLOCK.
Proof.
  erewrite (walk_ends_on_unlock (Some "vp-unknown") demoUser 1 0 0 "noodle" 777);
    reflexivity.
Defined.

(** The keys of the labelled steps are the statuses used throughout. *)
Example stepLabels_keys : map fst stepLabels = steps.
Proof. reflexivity. Qed.

(** * Sessions with views that are still exiting *)

Lemma handleFrom_current e s : handleFrom s e s = handle e s.
Proof.
  destruct e; unfold handleFrom, handle, clickArrivePoint;
    destruct (screen s); reflexivity.
Qed.

Lemma stepFrom_current e s : stepFrom s e s = step e s.
Proof. unfold stepFrom, step. rewrite handleFrom_current. reflexivity. Qed.

(** A run of events of the current view is a play of presses at place 0. *)
Lemma play_live es : forall h,
  h <> [] -> current (play (live es) h) = run es (current h).
Proof.
  induction es as [|e es IH]; intros h Hh; [reflexivity|].
  destruct h as [|s h]; [congruence|].
  simpl. rewrite IH; [|discriminate].
  simpl. rewrite stepFrom_current. reflexivity.
Qed.

Lemma renders_live loc es :
  current (renders loc (live es)) = run es (boot loc).
Proof. unfold renders. rewrite play_live; [reflexivity | discriminate]. Qed.

Lemma handleFrom_user v e s :
  (user s <> None -> user (handleFrom v e s) <> None)
  /\ ((screen s = SCREENS.LANDING -> user s = None) ->
      screen (handleFrom v e s) = SCREENS.LANDING ->
      user (handleFrom v e s) = None).
Proof.
  destruct e; unfold handleFrom;
    try (destruct (handle_timer_keeps i s) as (-> & -> & _); tauto);
    destruct (screen v); try tauto;
    unfold clickLocation, clickArrivePoint, clickMerchant,
      clickOpenArrivePoint, onAuthed, onPickLocation, onPickArrivePoint,
      onSelect, onCheckout, onUnlock;
    repeat break_goal; simpl; try tauto;
    split; intros; try discriminate; auto.
Qed.

Lemma effects_landing r :
  (screen r = SCREENS.LANDING -> user r = None) ->
  screen (effects r) = SCREENS.LANDING -> user (effects r) = None.
Proof.
  intros H E. destruct (effects_keeps r) as (-> & _). apply H.
  destruct (effects_screen_cases r) as [<- | [E' | E']]; congruence.
Qed.

(** The three things a press can do to the order cell, whatever view it
    comes from. *)
Lemma handleFrom_order_cases v e s :
  timerInv s ->
  (order (handleFrom v e s) = order s /\ timers (handleFrom v e s) = timers s
   /\ orderDep (handleFrom v e s) = orderDep s)
  \/ (exists m rnd,
        e = DetailCheckout rnd /\ screen v = SCREENS.MERCHANT_DETAIL
        /\ selectedMerchant v = Some m
        /\ handleFrom v e s = onCheckout m rnd s)
  \/ (exists o t,
        e = TimerFire O /\ order s = Some o
        /\ nth_error (orderEffectBody (Some o)) O = Some t
        /\ order (handleFrom v e s) = Some (spreadStatus (Some o) (next t))
        /\ orderDep (handleFrom v e s) = orderDep s).
Proof.
  intros (Hc & Ht & Hd).
  destruct e; unfold handleFrom.
  12: {
    unfold fire. destruct (nth_error (timers s) i) as [t|] eqn:En.
    - right; right. rewrite Ht in En.
      destruct (order s) as [o|] eqn:Eo.
      + destruct (pending_timer o i t (proj1 (Hc o eq_refl)) En) as (-> & _).
        exists o, t. repeat split; try assumption; reflexivity.
      + destruct i; discriminate En.
    - left. auto. }
  all: destruct (screen v) eqn:Esc; auto.
  all: unfold clickLocation, clickMerchant, clickOpenArrivePoint.
  all: repeat break_goal; auto.
  right; left; eauto 8.
Qed.

Lemma timerInv_stepFrom v e s : timerInv s -> timerInv (stepFrom v e s).
Proof.
  intros Hinv.
  destruct (handleFrom_order_cases v e s Hinv)
    as [(Eo & Et & Ed) | [(m & rnd & -> & Esc & Em & Eh)
                         | (o & t & -> & Eo & Ent & Eo' & Ed)]];
    destruct Hinv as (Hc & Ht & Hd); unfold stepFrom.
  - destruct (orderEffect_establishes (handleFrom v e s)) as (Ro & Rt & Rd).
    { intros _. congruence. }
    unfold timerInv. rewrite Ro, Rt, Rd, Eo.
    split; [exact Hc|]. split; reflexivity.
  - rewrite Eh.
    destruct (orderEffect_establishes (onCheckout m rnd s)) as (Ro & Rt & Rd).
    { intros E.
      change (timers s = orderEffectBody (Some (newOrder m rnd))).
      rewrite Ht. apply orderEffectBody_status.
      rewrite <- Hd. symmetry. exact E. }
    unfold timerInv. rewrite Ro, Rt, Rd.
    split; [|split; reflexivity].
    intros o [= <-]. apply completeOrder_new.
  - destruct (pending_timer o O t (proj1 (Hc o Eo)) Ent)
      as (_ & Hne & Hin & _).
    destruct (orderEffect_establishes (handleFrom v (TimerFire O) s))
      as (Ro & Rt & Rd).
    { rewrite Eo', Ed, Hd, Eo. simpl. congruence. }
    unfold timerInv. rewrite Ro, Rt, Rd, Eo'.
    split; [|split; reflexivity].
    intros o' [= <-]. destruct (Hc o Eo) as (_ & H1 & H2 & H3).
    repeat split; assumption.
Qed.

(** What one press does to the order of a session that has one. *)
Lemma stepFrom_order_cases v e s o :
  timerInv s -> order s = Some o ->
  exists o', order (stepFrom v e s) = Some o'
    /\ (o' = o
        \/ (e = TimerFire O /\ Order.status o <> "DELIVERED"
            /\ oneStepAfter o o')
        \/ (exists m rnd, e = DetailCheckout rnd
              /\ screen v = SCREENS.MERCHANT_DETAIL
              /\ selectedMerchant v = Some m /\ o' = newOrder m rnd)).
Proof.
  intros Hinv Ho. unfold stepFrom.
  destruct (effects_keeps (handleFrom v e s)) as (_ & _ & _ & _ & ->).
  destruct (handleFrom_order_cases v e s Hinv)
    as [(Eo & _) | [(m & rnd & -> & Esc & Em & Eh)
                   | (o1 & t & -> & Eo & Ent & Eo' & _)]].
  - exists o. split; [congruence | auto].
  - exists (newOrder m rnd). rewrite Eh. split; [reflexivity|].
    right; right. eauto 6.
  - assert (o1 = o) as -> by congruence.
    destruct Hinv as (Hc & _). destruct (Hc o Ho) as (Hin & _).
    exists (spreadStatus (Some o) (next t)). split; [exact Eo'|].
    right; left. split; [reflexivity|]. split.
    + intros Ed. rewrite (no_timer_when_delivered o Ed) in Ent.
      discriminate Ent.
    + apply oneStepAfter_fire; assumption.
Qed.

Lemma historyInv_boot loc : historyInv [boot loc; initial].
Proof.
  destruct (boot_fields loc) as (Bs & Bu & _ & Bo & _).
  unfold historyInv, current; simpl.
  split; [apply effects_idem|]. split.
  { unfold timerInv. unfold boot, deepLink.
    destruct loc as [l|]; [destruct (truthy l)|]; cbn;
      (split; [intros o E; discriminate E | split; reflexivity]). }
  split; [intros r [<- | [<- | []]] _; [exact Bu | reflexivity]|].
  split; intros r [<- | [<- | []]] H; try exact H; exfalso; apply H;
    reflexivity.
Qed.

Lemma historyInv_press h n v e :
  historyInv h -> nth_error h n = Some v ->
  historyInv (stepFrom v e (current h) :: handleFrom v e (current h) :: h).
Proof.
  intros (Hs & Ht & Hl & Hu & Ho) Hn.
  pose proof (nth_error_In _ _ Hn) as Hv.
  assert (Hc : In (current h) h).
  { destruct h as [|s h]; [destruct n; discriminate Hn | left; reflexivity]. }
  set (s := current h) in *. set (raw := handleFrom v e s).
  assert (Lraw : screen raw = SCREENS.LANDING -> user raw = None)
    by (apply handleFrom_user, (Hl s Hc)).
  assert (Uraw : user s <> None -> user raw <> None)
    by apply handleFrom_user.
  assert (Oraw : order s <> None -> order raw <> None).
  { intros H. destruct (order s) as [o|] eqn:Eo; [|congruence].
    destruct (stepFrom_order_cases v e s o Ht Eo) as (o' & Ho' & _).
    unfold stepFrom in Ho'. fold raw in Ho'.
    destruct (effects_keeps raw) as (_ & _ & _ & _ & Er).
    rewrite Er in Ho'. congruence. }
  destruct (effects_keeps raw) as (Eu & _ & _ & _ & Eo).
  unfold historyInv, current; simpl. fold raw.
  split; [apply effects_idem|].
  split; [apply timerInv_stepFrom, Ht|].
  split.
  { intros r [<- | [<- | Hr]];
      [apply effects_landing, Lraw | exact Lraw | apply Hl, Hr]. }
  unfold stepFrom. fold raw. rewrite Eu, Eo. split.
  - intros r [<- | [<- | Hr]] H; [congruence | exact H |].
    apply Uraw, (Hu r Hr H).
  - intros r [<- | [<- | Hr]] H; [congruence | exact H |].
    apply Oraw, (Ho r Hr H).
Qed.

Lemma historyInv_play ps : forall h, historyInv h -> historyInv (play ps h).
Proof.
  induction ps as [|[n e] ps IH]; intros h Hh; [exact Hh|].
  simpl. destruct (nth_error h n) as [v|] eqn:En; [|apply IH, Hh].
  apply IH, (historyInv_press h n v e Hh En).
Qed.

Lemma historyInv_renders loc ps : historyInv (renders loc ps).
Proof. apply historyInv_play, historyInv_boot. Qed.

Lemma play_extends ps : forall h r, In r h -> In r (play ps h).
Proof.
  induction ps as [|[n e] ps IH]; intros h r Hr; [exact Hr|].
  simpl. destruct (nth_error h n); apply IH; simpl; auto.
Qed.


Lemma renders_not_nil loc ps : renders loc ps <> [].
Proof.
  intros E. assert (H : In initial (renders loc ps))
    by (apply play_extends; simpl; auto).
  rewrite E in H. exact H.
Qed.

(** ** The guard *)

(** C2.  Take any state the session is rendered in, before or after the
    effects, in any session, presses on exiting views included.  With a user
    and an empty [locationId] or [arrivePointId], the screen after the guard
    is never MERCHANTS, MERCHANT_DETAIL, TRACKING or UNLOCK: whenever the
    screen is not AUTH or DESTINATION the guard makes it DESTINATION. *)
Theorem guard_forces_destination
        (loc : option string) (ps : list (nat * Event)) (r : Session) :
  In r (renders loc ps) ->
  user r <> None ->
  locationId r = "" \/ arrivePointId r = "" ->
  beforeMerchants (screen (effects r))
  /\ (effects r = r -> beforeMerchants (screen r))
  /\ (screen r <> SCREENS.AUTH -> screen r <> SCREENS.DESTINATION ->
      screen (guard r) = SCREENS.DESTINATION).
Proof.
  intros Hr Hu Hi. apply incomplete_true in Hi.
  destruct (historyInv_renders loc ps) as (_ & _ & Hl & _).
  assert (Hn : screen r <> SCREENS.LANDING).
  { intros E. apply Hu, (Hl r Hr E). }
  assert (B : beforeMerchants (screen (effects r))).
  { rewrite effects_screen, (guard_incomplete r Hu Hi).
    unfold beforeMerchants. destruct (screen r); repeat split; congruence. }
  split; [exact B|]. split; [intros E; rewrite E in B; exact B|].
  intros H1 H2. rewrite (guard_incomplete r Hu Hi).
  destruct (screen r); congruence.
Qed.

Lemma guard_forces_destination_witness :
  let r := nth 1 (renders None lateLocationClick) initial in
  In r (renders None lateLocationClick)
  /\ user r = Some demoUser /\ arrivePointId r = ""
  /\ screen r = SCREENS.MERCHANTS
  /\ screen (guard r) = SCREENS.DESTINATION.
Proof.
  intros r.
  assert (Hin : In r (renders None lateLocationClick))
    by (vm_compute; right; left; reflexivity).
  split; [exact Hin|]. split; [reflexivity|]. split; [reflexivity|].
  split; [reflexivity|].
  apply (guard_forces_destination None lateLocationClick r Hin);
    [vm_compute; discriminate | right; reflexivity
     | vm_compute; discriminate | vm_compute; discriminate].
Defined.

(** The same press seen from outside: the session is back on DESTINATION,
    with the other location and no arrive point. *)
Example late_location_click :
  let s := current (renders None lateLocationClick) in
  screen s = SCREENS.DESTINATION
  /\ locationId s = "vp-launch-fishers" /\ arrivePointId s = "".
Proof. vm_compute. repeat split. Qed.

(** ** Order status *)

(** C3, as stated, fails: after delivery, "Back to merchants" and a second
    checkout with the same merchant and draw leave an order with the same
    identifier, name and ETA whose status has gone from DELIVERED, place 6,
    back to PLACED, place 0. *)
Lemma second_checkout_resets_status :
  (exists o o',
     order (run toDelivered (boot None)) = Some o
     /\ order (run reorderSame (boot None)) = Some o'
     /\ sameOrder o o'
     /\ idx o = Some 6%nat /\ idx o' = Some 0%nat)
  /\ ~ (forall loc es1 es2 o o' n n',
          order (run es1 (boot loc)) = Some o ->
          order (run (es1 ++ es2) (boot loc)) = Some o' ->
          idx o = Some n -> idx o' = Some n' -> (n <= n')%nat).
Proof.
  split.
  - eexists. eexists.
    split; [vm_compute; reflexivity|]. split; [vm_compute; reflexivity|].
    split; [repeat split | split; reflexivity].
  - intros H.
    assert (E : (6 <= 0)%nat).
    { eapply (H None toDelivered
                [TrackingBack; MerchantClick "" 0; DetailCheckout 2345]);
        [vm_compute; reflexivity | vm_compute; reflexivity
         | reflexivity | reflexivity]. }
    lia.
Qed.

Lemma fire_from_any_view v i s : handleFrom v (TimerFire i) s = fire i s.
Proof. reflexivity. Qed.

Lemma stepFrom_fire_advances v s o :
  timerInv s -> order s = Some o -> Order.status o <> "DELIVERED" ->
  exists o', order (stepFrom v (TimerFire O) s) = Some o'
             /\ oneStepAfter o o'.
Proof.
  intros (Hc & Ht & _) Ho Hne. destruct (Hc o Ho) as (Hin & _).
  destruct (timer_when_not_delivered o Hin Hne) as [t Hn].
  exists (spreadStatus (Some o) (next t)). split.
  - unfold stepFrom.
    destruct (effects_keeps (handleFrom v (TimerFire O) s))
      as (_ & _ & _ & _ & ->).
    rewrite fire_from_any_view. unfold fire. rewrite Ht, Ho, Hn. reflexivity.
  - apply oneStepAfter_fire; assumption.
Qed.

Lemma stepFrom_fire_idle v i s o :
  effects s = s -> timerInv s -> order s = Some o ->
  Order.status o = "DELIVERED" -> stepFrom v (TimerFire i) s = s.
Proof.
  intros Hs (_ & Ht & _) Ho Ed. unfold stepFrom.
  rewrite fire_from_any_view. unfold fire.
  rewrite Ht, Ho, (no_timer_when_delivered o Ed).
  destruct i; exact Hs.
Qed.

(** Over presses none of which is a checkout the order keeps its identity
    and its place never decreases. *)
Lemma play_order_monotone qs : forall h o,
  historyInv h -> order (current h) = Some o ->
  Forall (fun p => isCheckout (snd p) = false) qs ->
  exists o' n n',
    order (current (play qs h)) = Some o' /\ sameOrder o o'
    /\ idx o = Some n /\ idx o' = Some n' /\ (n <= n')%nat.
Proof.
  induction qs as [|[k e] qs IH]; intros h o Hh Ho Hqs.
  - destruct Hh as (_ & (Hc & _) & _).
    destruct (idx_defined o (proj1 (Hc o Ho))) as [n Hn].
    exists o, n, n. simpl. auto using sameOrder_refl.
  - inversion Hqs as [|? ? He Hqs']; subst. simpl in He. simpl.
    destruct (nth_error h k) as [v|] eqn:En; [|apply (IH h o Hh Ho Hqs')].
    pose proof (historyInv_press h k v e Hh En) as Hh'.
    destruct Hh as (_ & Ht & _).
    destruct (stepFrom_order_cases v e (current h) o Ht Ho)
      as (o1 & Ho1 & [-> | [(_ & _ & Hsame & j & Hj & Hj1)
                           | (m & rnd & -> & _)]]);
      [ | | discriminate He].
    + apply (IH _ o Hh' Ho1 Hqs').
    + destruct (IH _ o1 Hh' Ho1 Hqs')
        as (o' & n & n' & Hrun & Hs' & Hn & Hn' & Hle).
      exists o', j, n'. split; [exact Hrun|].
      split; [destruct Hsame as (? & ? & ?), Hs' as (? & ? & ?);
              repeat split; congruence|].
      split; [exact Hj|]. split; [exact Hn'|].
      assert (n = S j) by congruence. lia.
Qed.

(** C3, amended.  In any session, presses on exiting views included: the
    status of the order is one of the seven; one press leaves the order as
    it is, or is the pending timer firing and moves it exactly one place
    forward, or is a checkout and stores an order with status PLACED; over
    presses without a checkout the order keeps its identity and its place
    never decreases; before DELIVERED the timer is pending and does move it;
    at DELIVERED a timer event changes nothing. *)
Theorem status_moves_by_timer_until_checkout
        (loc : option string) (ps : list (nat * Event)) (o : Order.t) :
  order (current (renders loc ps)) = Some o ->
  (exists n, idx o = Some n)
  /\ (forall k v e, nth_error (renders loc ps) k = Some v ->
        exists o', order (stepFrom v e (current (renders loc ps))) = Some o'
          /\ (o' = o
              \/ (e = TimerFire O /\ oneStepAfter o o')
              \/ (isCheckout e = true /\ Order.status o' = "PLACED")))
  /\ (forall qs, Forall (fun p => isCheckout (snd p) = false) qs ->
        exists o' n n',
          order (current (play qs (renders loc ps))) = Some o'
          /\ sameOrder o o'
          /\ idx o = Some n /\ idx o' = Some n' /\ (n <= n')%nat)
  /\ (Order.status o <> "DELIVERED" ->
        forall v, exists o',
          order (stepFrom v (TimerFire O) (current (renders loc ps)))
          = Some o'
          /\ oneStepAfter o o')
  /\ (Order.status o = "DELIVERED" ->
        forall v i,
          stepFrom v (TimerFire i) (current (renders loc ps))
          = current (renders loc ps)).
Proof.
  intros Ho. pose proof (historyInv_renders loc ps) as Hh.
  pose proof Hh as (Hs & Ht & _). pose proof Ht as (Hc & _).
  split; [apply idx_defined, (Hc o Ho)|]. split; [|split; [|split]].
  - intros k v e _.
    destruct (stepFrom_order_cases v e _ o Ht Ho)
      as (o' & Ho' & [E | [(E & _ & H1) | (m & rnd & E & _ & _ & E')]]);
      exists o'; (split; [assumption|]); auto.
    right; right. subst. split; reflexivity.
  - intros qs Hqs. apply (play_order_monotone qs _ o Hh Ho Hqs).
  - intros Hne v. apply (stepFrom_fire_advances v _ o Ht Ho Hne).
  - intros Ed v i. apply (stepFrom_fire_idle v i _ o Hs Ht Ho Ed).
Qed.

Lemma status_moves_witness :
  order (current (renders None (live toTracking))) = Some firstOrder
  /\ exists o',
       order (stepFrom initial (TimerFire O)
                       (current (renders None (live toTracking))))
       = Some o'
       /\ oneStepAfter firstOrder o'.
Proof.
  assert (Ho : order (current (renders None (live toTracking)))
               = Some firstOrder) by (vm_compute; reflexivity).
  split; [exact Ho|].
  destruct (status_moves_by_timer_until_checkout
              None (live toTracking) firstOrder Ho) as (_ & _ & _ & H & _).
  apply H. discriminate.
Defined.

(** ** Orders are kept *)



(** The press of that witness, seen from outside: while the screen is
    TRACKING, a second press on the exiting merchant page puts its own order
    in the place of the first. *)
Example late_checkout :
  let s := current (renders None lateCheckout) in
  screen s = SCREENS.TRACKING
  /\ order s = Some {| Order.id := Some "VP-10777"; Order.status := "PLACED";
                       Order.merchantName := Some "Sushi & Bowls";
                       Order.eta := Some 28 |}.
Proof. vm_compute. repeat split. Qed.

(** ** Checkout *)

Lemma orderId_injective n m : orderId n = orderId m -> n = m.
Proof.
  intros H. unfold orderId in H. simpl in H. injection H as H.
  apply DecimalZ.to_int_inj.
  destruct (to_int_not_nil n) as [N1 N2], (to_int_not_nil m) as [M1 M2].
  pose proof (NilZero.isi _ N1 N2) as In.
  pose proof (NilZero.isi _ M1 M2) as Im.
  rewrite H in In. congruence.
Qed.

Lemma orderId_in_range rnd :
  0 <= rnd < 90000 ->
  String.length (orderId (rnd + 10000)) = 8%nat
  /\ substring 0 3 (orderId (rnd + 10000)) = "VP-".
Proof.
  intros Hr.
  split;
    [|unfold orderId; simpl; destruct (NilZero.string_of_int _); reflexivity].
  assert (H : idsHaveEightChars (Z.to_nat 90000) 0 = true)
    by (vm_compute; reflexivity).
  pose proof (idsHaveEightChars_spec _ 0 H rnd) as E.
  rewrite Z.add_0_l in E. apply E. lia.
Qed.

(** C8.  "Order with ChowNow" on a merchant page that shows merchant [m],
    the current page or one still exiting, stores a new order with status
    PLACED, the name and ETA of [m], and an identifier made from the random
    draw: "VP-" and the draw plus 10000, so that two draws give the same
    identifier only when they are equal, and every draw from 0 to 89999
    gives "VP-" and five more characters.  The screen becomes TRACKING; on
    the current page of a reachable session the effects leave order and
    screen in place and set the timer towards ACCEPTED. *)
Theorem checkout_creates_order_with_random_id
        (v s : Session) (m : Merchant.t) (rnd : Z) :
  screen v = SCREENS.MERCHANT_DETAIL -> selectedMerchant v = Some m ->
  order (handleFrom v (DetailCheckout rnd) s)
    = Some {| Order.id := Some (orderId (rnd + 10000));
              Order.status := "PLACED";
              Order.merchantName := Some (Merchant.name m);
              Order.eta := Some (Merchant.etaMins m) |}
  /\ screen (handleFrom v (DetailCheckout rnd) s) = SCREENS.TRACKING
  /\ (forall rnd',
        option_map Order.id (order (handleFrom v (DetailCheckout rnd') s))
        = option_map Order.id (order (handleFrom v (DetailCheckout rnd) s)) ->
        rnd' = rnd)
  /\ (0 <= rnd < 90000 ->
      exists i, option_map Order.id
                  (order (handleFrom v (DetailCheckout rnd) s))
                = Some (Some i)
                /\ String.length i = 8%nat /\ substring 0 3 i = "VP-")
  /\ (forall loc, reachable loc v ->
        order (step (DetailCheckout rnd) v)
          = order (handle (DetailCheckout rnd) v)
        /\ screen (step (DetailCheckout rnd) v) = SCREENS.TRACKING
        /\ timers (step (DetailCheckout rnd) v)
           = [ {| next := "ACCEPTED"; ms := 1500 |} ]).
Proof.
  intros Hs Hm.
  assert (Eh : forall d, handleFrom v (DetailCheckout d) s = onCheckout m d s).
  { intros d. unfold handleFrom. rewrite Hs, Hm. reflexivity. }
  rewrite !Eh. split; [reflexivity|]. split; [reflexivity|].
  split; [|split].
  - intros rnd' E. rewrite Eh in E.
    change (Some (Some (orderId (rnd' + 10000)))
            = Some (Some (orderId (rnd + 10000)))) in E.
    assert (E' : orderId (rnd' + 10000) = orderId (rnd + 10000))
      by congruence.
    apply orderId_injective in E'. lia.
  - intros Hr. exists (orderId (rnd + 10000)).
    split; [reflexivity | apply (orderId_in_range rnd Hr)].
  - intros loc Hreach.
    destruct (checkout_on_current_page v m rnd Hs Hm) as (_ & _ & _ & H).
    apply (H loc Hreach).
Qed.

Lemma checkout_creates_order_witness :
  let h := renders None (live toTracking) in
  exists v m,
    nth_error h 2 = Some v
    /\ screen v = SCREENS.MERCHANT_DETAIL /\ selectedMerchant v = Some m
    /\ Merchant.name m = "Sushi & Bowls"
    /\ screen (handleFrom v (DetailCheckout 2345) (current h))
       = SCREENS.TRACKING.
Proof.
  intros h.
  destruct (nth_error h 2) as [v|] eqn:En; [|vm_compute in En; discriminate En].
  assert (Ev : v = nth 2 h initial).
  { symmetry. apply nth_error_nth with (d := initial) in En. exact En. }
  assert (Hs : screen v = SCREENS.MERCHANT_DETAIL)
    by (rewrite Ev; vm_compute; reflexivity).
  destruct (selectedMerchant v) as [m|] eqn:Em;
    [|rewrite Ev in Em; vm_compute in Em; discriminate Em].
  exists v, m. split; [reflexivity|]. split; [exact Hs|].
  split; [exact Em|]. split.
  - rewrite Ev in Em. vm_compute in Em. injection Em as <-. reflexivity.
  - apply (checkout_creates_order_with_random_id v (current h) m 2345 Hs Em).
Defined.

(** ** Signing in *)

(** X10.  In any session, presses on exiting views and late calls of
    [onAuthed] included: a session that has a user keeps having one, whatever
    is pressed afterwards, since nothing signs out; and a state rendered on
    LANDING has no user. *)
Theorem user_never_signed_out
        (loc : option string) (ps : list (nat * Event)) :
  (forall r, In r (renders loc ps) -> user r <> None ->
     forall qs, user (current (play qs (renders loc ps))) <> None)
  /\ (forall r, In r (renders loc ps) ->
        screen r = SCREENS.LANDING -> user r = None).
Proof.
  split.
  - intros r Hr Hu qs.
    destruct (historyInv_play qs _ (historyInv_renders loc ps))
      as (_ & _ & _ & Hk & _).
    apply (Hk r); [apply play_extends, Hr | exact Hu].
  - apply (historyInv_renders loc ps).
Qed.

(** The user can still be replaced: after the session has moved on, the
    continuation of a second Verify on the exiting sign-in view calls
    [onAuthed] again, with its own number, and the screen is DESTINATION
    once more. *)
Example late_verify_signs_in_again :
  option_map screen
    (nth_error (renders None (live (toDestination ++ [DestinationContinue])))
               8)
  = Some SCREENS.AUTH
  /\ screen (current (renders None (live (toDestination
                                           ++ [DestinationContinue]))))
     = SCREENS.MERCHANTS
  /\ screen (current (renders None lateVerify)) = SCREENS.DESTINATION
  /\ user (current (renders None lateVerify))
     = Some {| phone := "3175550199" |}.
Proof. vm_compute. repeat split. Qed.

(** ** Merchant search *)

Lemma filter_all {A} (f : A -> bool) l :
  (forall x, In x l -> f x = true) -> filter f l = l.
Proof.
  induction l as [|x l IH]; simpl; [reflexivity|]. intros H.
  rewrite (H x (or_introl eq_refl)), IH; [reflexivity|]. auto.
Qed.

Lemma filtered_shownFor q : filtered q = filter (shownFor q) MERCHANTS.
Proof.
  unfold filtered, shownFor.
  destruct (negb (truthy (toLowerCase (trim q)))) eqn:E.
  - symmetry. apply filter_all. reflexivity.
  - apply filter_ext. reflexivity.
Qed.

(** X19.  For a search text of ASCII characters: the list shown is the
    table [MERCHANTS] in its own order, with exactly the merchants for which
    the text is blank or occurs, case ignored, in the name or the category;
    whether a merchant is open plays no part, so a closed merchant that
    matches is listed.  A blank text shows every merchant, and two texts
    that differ only in the case of their letters show the same list. *)
Theorem merchant_search_on_ascii_text (q : string) :
  isAscii q = true ->
  filtered q = filter (shownFor q) MERCHANTS
  /\ (forall m, In m (filtered q)
                <-> In m MERCHANTS
                    /\ (trim q = ""
                        \/ includes (toLowerCase (Merchant.name m))
                                    (toLowerCase (trim q)) = true
                        \/ includes (toLowerCase (Merchant.category m))
                                    (toLowerCase (trim q)) = true))
  /\ (trim q = "" -> filtered q = MERCHANTS)
  /\ (forall q', isAscii q' = true -> toLowerCase q' = toLowerCase q ->
        filtered q' = filtered q).
Proof.
  intros _. split; [apply filtered_shownFor|]. split; [|split].
  - intros m. rewrite filtered_shownFor, filter_In. unfold shownFor.
    rewrite !orb_true_iff, negb_true_iff, truthy_false, toLowerCase_empty.
    tauto.
  - intros E. unfold filtered. rewrite E. reflexivity.
  - intros q' _ E. unfold filtered.
    rewrite <- !trim_toLowerCase, E. reflexivity.
Qed.

Lemma merchant_search_witness :
  isAscii "  GRILL " = true
  /\ map Merchant.id (filtered "  GRILL ") = ["merchant-3"]
  /\ map Merchant.open (filtered "  GRILL ") = [false]
  /\ filtered "  GRILL " = filter (shownFor "  GRILL ") MERCHANTS.
Proof.
  split; [reflexivity|]. split; [reflexivity|]. split; [reflexivity|].
  apply (proj1 (merchant_search_on_ascii_text "  GRILL " eq_refl)).
Defined.
